(** * pp.routing.route_pad_array: pad-array placement and port-to-pad pairing

    A shallow embedding of [src/pp/routing/route_pad_array.py] and the
    properties of its port ordering, baseline computation, pad placement and
    failure behaviour.

    Python numbers ([int] mixed with [float]) are kept behind the interface
    [Number]; the structural results hold for every implementation of that
    interface, the numeric ones are stated in the exact rational instance
    [QcNumber] (binary64 rounding error is not part of this development).
    Python exceptions are values of [Exn]; the objects a call instantiates
    (placed pads, routes) are recorded in a trace of [Event]s. *)

From Stdlib Require Import String ZArith List Bool Lia Permutation.
From Stdlib Require Import QArith Qcanon Field.
Import ListNotations.
Open Scope string_scope.
Open Scope Z_scope.
Open Scope list_scope.

Set Implicit Arguments.

(* ================================================================== *)
(** ** Numbers *)

(** The arithmetic the source performs on coordinates and lengths. *)
Class Number (num : Type) : Type := {
  of_int : Z -> num;            (* an [int] used where a number is expected *)
  add : num -> num -> num;
  sub : num -> num -> num;
  mul : num -> num -> num;
  div : num -> num -> num;      (* true division [/]; every divisor in the
                                   source is non-zero where it is evaluated *)
  ltb : num -> num -> bool;
  round1 : num -> num           (* [round(v, 1)] *)
}.

Declare Scope num_scope.
Delimit Scope num_scope with num.
Infix "+:" := add (at level 50, left associativity) : num_scope.
Infix "-:" := sub (at level 50, left associativity) : num_scope.
Infix "*:" := mul (at level 40, left associativity) : num_scope.
Infix "/:" := div (at level 40, left associativity) : num_scope.
Open Scope num_scope.

Section NumberOps.
Context {num : Type} {NumOps : Number num}.

(** [min(a, b)]: the first argument unless the second is smaller. *)
Definition py_min (a b : num) : num := if ltb b a then b else a.

(** [sum(xs)]: left fold starting from the integer 0. *)
Definition py_sum (xs : list num) : num := fold_left add xs (of_int 0).
End NumberOps.

(** [range(n)] *)
Definition range (n : Z) : list Z := map Z.of_nat (seq 0 (Z.to_nat n)).

(** [len(l)] *)
Definition len {A : Type} (l : list A) : Z := Z.of_nat (List.length l).

(* ================================================================== *)
(** ** Data model *)

Module Port.
Record t {num : Type} : Type := mk {
  name : string;
  x : num;
  y : num;
  orientation : num
}.
Arguments t : clear implicits.
End Port.

(** A name-to-port dict in insertion order. *)
Definition PortDict (num : Type) : Type := list (string * Port.t num).

Definition values {num : Type} (d : PortDict num) : list (Port.t num) :=
  map snd d.

Fixpoint lookup {num : Type} (d : PortDict num) (k : string)
  : option (Port.t num) :=
  match d with
  | [] => None
  | (k', p) :: d' => if String.eqb k' k then Some p else lookup d' k
  end.

Module Component.
(** The device and the pad prototype are both components; only the
    attributes read by the source are kept. *)
Record t {num : Type} : Type := mk {
  ports : PortDict num;
  ymin : num;
  height : num           (* [size_info.height] *)
}.
Arguments t : clear implicits.
End Component.

Module ComponentReference.
(** The placed instance built by [Component.ref(position, rotation,
    port_id)]: it records its prototype and the placement it was given. *)
Record t {num : Type} : Type := mk {
  parent : Component.t num;
  position : num * num;
  rotation : Z;
  port_id : string
}.
Arguments t : clear implicits.
End ComponentReference.

(** What the list [pads] may hold: the prototype itself (as in
    [[pad] * N]) or a placed reference. *)
Inductive PadObj (num : Type) : Type :=
| Proto (c : Component.t num)
| Placed (r : ComponentReference.t num).
Arguments Proto {num} c.
Arguments Placed {num} r.

(** [List[Union[ComponentReference, Label]]] *)
Inductive Element (num : Type) : Type :=
| RefElement (r : ComponentReference.t num)
| LabelElement (text : string).
Arguments RefElement {num} r.
Arguments LabelElement {num} text.

(** The dict returned by the route constructor; only ["references"] is read. *)
Record Route (num : Type) : Type := mkRoute {
  references : list (Element num)
}.

(** The dict returned by [direction_ports_from_list_ports]. *)
Record DirectionPorts (num : Type) : Type := mkDirectionPorts {
  dirE : list (Port.t num);
  dirN : list (Port.t num);
  dirW : list (Port.t num);
  dirS : list (Port.t num)
}.

Inductive PadSource (num : Type) : Type :=
| Factory (make : unit -> Component.t num)   (* [callable(pad)] *)
| Instance (c : Component.t num).
Arguments Factory {num} make.
Arguments Instance {num} c.

(* ================================================================== *)
(** ** Exceptions and instantiated objects *)

Inductive Exn : Type :=
| KeyError (k : string)
| IndexError
| AssertionError
| ZeroDivisionError
| AttributeError (attr : string).

Inductive Event (num : Type) : Type :=
| PadPlaced (r : ComponentReference.t num)          (* a [.ref(...)] call *)
| RouteBuilt (p1 p0 : Port.t num).                  (* a route-constructor call *)
Arguments PadPlaced {num} r.
Arguments RouteBuilt {num} p1 p0.

Definition is_pad {num : Type} (ev : Event num) : bool :=
  match ev with PadPlaced _ => true | RouteBuilt _ _ => false end.

(** A computation: the objects instantiated so far, and either the exception
    that stopped it or its value. *)
Definition M (num A : Type) : Type := (list (Event num) * (Exn + A))%type.

Section Monad.
Context {num : Type}.

Definition ret {A : Type} (a : A) : M num A := ([], inr a).

Definition raise {A : Type} (e : Exn) : M num A := ([], inl e).

Definition emit (ev : Event num) : M num unit := ([ev], inr tt).

Definition bind {A B : Type} (m : M num A) (f : A -> M num B) : M num B :=
  match m with
  | (t, inl e) => (t, inl e)
  | (t, inr a) => let (t', r) := f a in (t ++ t', r)
  end.

Definition trace {A : Type} (m : M num A) : list (Event num) := fst m.
Definition outcome {A : Type} (m : M num A) : Exn + A := snd m.
End Monad.

Notation "x <- c ;; k" := (bind c (fun x => k))
  (at level 61, c at next level, right associativity).
Notation "c ;;; k" := (bind c (fun _ => k))
  (at level 61, right associativity).

Section Loops.
Context {num : Type}.

(** A list comprehension whose element expression may raise. *)
Fixpoint mapM {A B : Type} (f : A -> M num B) (xs : list A)
  : M num (list B) :=
  match xs with
  | [] => ret []
  | a :: xs' => b <- f a ;; bs <- mapM f xs' ;; ret (b :: bs)
  end.

(** A [for] loop threading the variables it assigns. *)
Fixpoint foldM {A S : Type} (body : S -> A -> M num S) (xs : list A) (s : S)
  : M num S :=
  match xs with
  | [] => ret s
  | a :: xs' => s' <- body s a ;; foldM body xs' s'
  end.

(** [d[k]] on a dict *)
Definition getitem (d : PortDict num) (k : string) : M num (Port.t num) :=
  match lookup d k with
  | Some p => ret p
  | None => raise (KeyError k)
  end.

(** [l[i]] on a list, for the non-negative indices of a [range] *)
Definition index {A : Type} (l : list A) (i : Z) : M num A :=
  match nth_error l (Z.to_nat i) with
  | Some a => ret a
  | None => raise IndexError
  end.

(** [a // b] on integers *)
Definition floordiv (a b : Z) : M num Z :=
  if b =? 0 then raise ZeroDivisionError else ret (a / b).

(** [assert c] *)
Definition assert (c : bool) : M num unit :=
  if c then ret tt else raise AssertionError.
End Loops.

(* ================================================================== *)
(** ** The arguments of [route_pad_array] *)

Module Args.
Record t {num : Type} : Type := mk {
  component : Component.t num;
  pad_spacing : num;
  pad : PadSource num;
  fanout_length : num;
  max_y0_optical : option num;
  straight_separation : num;
  bend_radius : num;
  connected_port_list_ids : option (list string);
  n_ports : Z;
  excluded_ports : option (list string);
  pad_indices : option (list Z);
  get_route_function : Port.t num -> Port.t num -> Route num;
  port_name : string;
  pad_rotation : Z;
  x_pad_offset : num;
  port_labels : option (list string);
  select_ports : PortDict num -> PortDict num
}.
Arguments t : clear implicits.

(** The same call with another [pad_indices]. *)
Definition with_pad_indices {num : Type} (a : t num) (v : option (list Z))
  : t num :=
  mk (component a) (pad_spacing a) (pad a) (fanout_length a)
     (max_y0_optical a) (straight_separation a) (bend_radius a)
     (connected_port_list_ids a) (n_ports a) (excluded_ports a) v
     (get_route_function a) (port_name a) (pad_rotation a) (x_pad_offset a)
     (port_labels a) (select_ports a).

(** The same call with another [connected_port_list_ids]. *)
Definition with_connected_port_list_ids {num : Type} (a : t num)
  (v : option (list string)) : t num :=
  mk (component a) (pad_spacing a) (pad a) (fanout_length a)
     (max_y0_optical a) (straight_separation a) (bend_radius a)
     v (n_ports a) (excluded_ports a) (pad_indices a)
     (get_route_function a) (port_name a) (pad_rotation a) (x_pad_offset a)
     (port_labels a) (select_ports a).
End Args.

(* ================================================================== *)
(** ** The function *)

Section RoutePadArray.
Context {num : Type} {NumOps : Number num}.

(** Collaborators imported by the module, outside this file's source. *)

(** [pp.routing.utils.direction_ports_from_list_ports]; it returns a fresh
    list per key. *)
Variable direction_ports_from_list_ports :
  list (Port.t num) -> DirectionPorts num.

(** [ComponentReference.ports]: a prototype port seen through a placement. *)
Variable transform_port : ComponentReference.t num -> Port.t num -> Port.t num.

(** The attribute [ref] looked up on a placed reference and called, which the
    loop over rows does from its second round on. *)
Variable reference_ref :
  ComponentReference.t num -> num * num -> Z -> string ->
  Exn + ComponentReference.t num.

(** [pad.ref(position=..., rotation=..., port_id=...)] on an item of [pads].
    On the prototype it builds the placed reference; [port_id] is the
    [port_name] that line 106 has already looked up on that prototype. *)
Definition PadObj_ref (o : PadObj num) (position : num * num) (rotation : Z)
  (port_id : string) : M num (PadObj num) :=
  match o with
  | Proto c =>
      let r := ComponentReference.mk c position rotation port_id in
      emit (PadPlaced r) ;;; ret (Placed r)
  | Placed r0 =>
      match reference_ref r0 position rotation port_id with
      | inl e => raise e
      | inr r => emit (PadPlaced r) ;;; ret (Placed r)
      end
  end.

(** [o.ports] on an item of [pads]. *)
Definition PadObj_ports (o : PadObj num) : PortDict num :=
  match o with
  | Proto c => Component.ports c
  | Placed r =>
      map (fun kp => (fst kp, transform_port r (snd kp)))
          (Component.ports (ComponentReference.parent r))
  end.

(** Line 83: [pad = pad() if callable(pad) else pad]. *)
Definition resolve_pad (pad : PadSource num) : Component.t num :=
  match pad with
  | Factory make => make tt
  | Instance c => c
  end.

(** Lines 71-77: the ports to route. *)
Definition selected_ports (a : Args.t num) : M num (list (Port.t num)) :=
  let excluded_ports :=
    match Args.excluded_ports a with
    | Some (e :: l) => e :: l
    | _ => []                                   (* [excluded_ports or []] *)
    end in
  ports <-
    match Args.port_labels a with
    | None =>
        ret (values (Args.select_ports a (Component.ports (Args.component a))))
    | Some lbls =>
        mapM (getitem (Component.ports (Args.component a))) lbls
    end ;;
  ret (filter
         (fun p => negb (existsb (String.eqb (Port.name p)) excluded_ports))
         ports).

(** Line 90: the centre of the ports along x. *)
Definition x_center (ports : list (Port.t num)) : num :=
  round1 (py_sum (map Port.x ports) /: of_int (len ports)).

(** Lines 135-136: the distance between two rows. *)
Definition row_pitch (pad_height : num) (K n_ports : Z)
  (sep bend_radius : num) : num :=
  let y_gap := (of_int K /: of_int n_ports +: of_int 1) *: sep in
  let y_sep := pad_height +: y_gap +: bend_radius in
  y_sep.

(** Line 138: the offset of slot 0 from the centre. *)
Definition slot_offset (nb_ports_per_line : Z) (io_sep x_pad_offset : num)
  : num :=
  of_int (nb_ports_per_line - 1) *: io_sep /: of_int 2 -: x_pad_offset.

(** Lines 97-98: [K = len(ports); K = K + 1 if K % 2 else K]. *)
Definition padding_factor (n : Z) : Z :=
  let K := n in
  if negb (K mod 2 =? 0) then K + 1 else K.

(** Lines 106-111: the baseline y-coordinate. *)
Definition baseline_y (y_min fanout_length pad_port_x : num) (K : Z)
  (sep : num) (max_y0_optical : option num) : num :=
  let y0_optical := y_min -: fanout_length -: pad_port_x in
  let y0_optical := y0_optical +: of_int (- K) /: of_int 2 *: sep in
  let y0_optical := round1 y0_optical in
  match max_y0_optical with
  | Some m => round1 (py_min m y0_optical)
  | None => y0_optical
  end.

(** Lines 121-131: the perimeter walk. *)
Definition compose_ordered_ports (direction_ports : DirectionPorts num)
  : list (Port.t num) :=
  let north_ports := dirN direction_ports in
  let north_start := firstn (Z.to_nat (len north_ports / 2)) north_ports in
  let north_finish := skipn (Z.to_nat (len north_ports / 2)) north_ports in
  let west_ports := rev (dirW direction_ports) in
  let east_ports := dirE direction_ports in
  let south_ports := dirS direction_ports in
  let north_finish := rev north_finish in
  let north_start := rev north_start in
  north_start ++ west_ports ++ south_ports ++ east_ports ++ north_finish.

(** Lines 141-144: the pad slots. *)
Definition resolve_pad_indices (pad_indices : option (list Z))
  (nb_ports_per_line : Z) : M num (list Z) :=
  match pad_indices with
  | None => ret (range nb_ports_per_line)
  | Some l => assert (len l =? nb_ports_per_line) ;;; ret l
  end.

(** Lines 146-154: every round rebinds [pads] to the references built from
    the previous [pads], zipped with the slots. *)
Definition place_rows (n_ports : Z) (pad_indices : list Z)
  (x_c offset io_sep y0_optical y_sep : num) (pad_rotation : Z)
  (port_name : string) (pads : list (PadObj num)) : M num (list (PadObj num)) :=
  foldM
    (fun pads j =>
       mapM
         (fun ip =>
            PadObj_ref (snd ip)
              (x_c -: offset +: of_int (fst ip) *: io_sep,
               y0_optical -: of_int j *: y_sep)
              pad_rotation port_name)
         (combine pad_indices pads))
    (range n_ports) pads.

(** Lines 158-159: the override replaces the walk when it is a non-empty
    list. *)
Definition final_ordered_ports (component : Component.t num)
  (connected_port_list_ids : option (list string))
  (ordered_ports : list (Port.t num)) : M num (list (Port.t num)) :=
  match connected_port_list_ids with
  | Some (i :: ids) =>
      mapM (getitem (Component.ports component)) (i :: ids)
  | _ => ret ordered_ports
  end.

(** Lines 163-166: the body of the pairing loop, for pad [i] of a row. *)
Definition pair_port
  (get_route_function : Port.t num -> Port.t num -> Route num)
  (port_name : string) (ordered_ports : list (Port.t num))
  (pads : list (PadObj num)) (elements : list (Element num)) (i : Z)
  : M num (list (Element num)) :=
  pad_i <- index pads i ;;
  p0 <- getitem (PadObj_ports pad_i) port_name ;;
  p1 <- index ordered_ports i ;;
  emit (RouteBuilt p1 p0) ;;;
  let route := get_route_function p1 p0 in
  ret (elements ++ references route).

(** Lines 161-166: pairing, [for pads in io_pad_lines: for i in range(N)]. *)
Definition pair_rows
  (get_route_function : Port.t num -> Port.t num -> Route num)
  (port_name : string) (N : Z) (ordered_ports : list (Port.t num))
  (io_pad_lines : list (list (PadObj num))) (elements : list (Element num))
  : M num (list (Element num)) :=
  foldM
    (fun elements pads =>
       foldM (pair_port get_route_function port_name ordered_ports pads)
         (range N) elements)
    io_pad_lines elements.

Definition route_pad_array (a : Args.t num)
  : M num (list (Element num) * list (list (PadObj num)) * num) :=
  let component := Args.component a in
  let port_name := Args.port_name a in
  let n_ports := Args.n_ports a in
  ports <- selected_ports a ;;
  let N := len ports in
  if N =? 0 then ret ([], [], of_int 0) else
  let elements := [] in
  let pad := resolve_pad (Args.pad a) in
  let pads := repeat (Proto pad) (Z.to_nat N) in
  let io_sep := Args.pad_spacing a in
  let offset := of_int (N - 1) *: io_sep /: of_int 2 in  (* rebound below *)
  let x_c := x_center ports in
  let y_min := Component.ymin component in
  let direction_ports := direction_ports_from_list_ports ports in
  let sep := Args.straight_separation a in
  let K := padding_factor (len ports) in
  pad_port <- getitem (Component.ports pad) port_name ;;
  let y0_optical :=
    baseline_y y_min (Args.fanout_length a) (Port.x pad_port) K sep
      (Args.max_y0_optical a) in
  let ordered_ports := compose_ordered_ports direction_ports in
  nb_ports_per_line <- floordiv N n_ports ;;
  let y_sep :=
    row_pitch (Component.height pad) K n_ports sep (Args.bend_radius a) in
  let offset := slot_offset nb_ports_per_line io_sep (Args.x_pad_offset a) in
  let io_pad_lines := [] in
  pad_indices <- resolve_pad_indices (Args.pad_indices a) nb_ports_per_line ;;
  pads <- place_rows n_ports pad_indices x_c offset io_sep y0_optical y_sep
            (Args.pad_rotation a) port_name pads ;;
  let io_pad_lines := io_pad_lines ++ [pads] in      (* line 156, once *)
  ordered_ports <-
    final_ordered_ports component (Args.connected_port_list_ids a)
      ordered_ports ;;
  elements <-
    pair_rows (Args.get_route_function a) port_name N ordered_ports
      io_pad_lines elements ;;
  ret (elements, io_pad_lines, y0_optical).

End RoutePadArray.

(* ================================================================== *)
(** ** Exact rational numbers *)

(** The integer nearest to [q], ties to the even one, as [round] does. *)
Definition round_half_even (q : Q) : Z :=
  let n := Qnum q in
  let d := Zpos (Qden q) in
  let fl := n / d in
  match (2 * (n mod d) ?= d) with
  | Lt => fl
  | Gt => fl + 1
  | Eq => if Z.even fl then fl else fl + 1
  end.

Definition Qc_round1 (q : Qc) : Qc :=
  Q2Qc (inject_Z (round_half_even (this q * inject_Z 10)) / inject_Z 10).

Definition Qc_ltb (a b : Qc) : bool :=
  match (this a ?= this b)%Q with
  | Lt => true
  | _ => false
  end.

#[export] Instance QcNumber : Number Qc := {
  of_int z := Q2Qc (inject_Z z);
  add := Qcplus;
  sub := Qcminus;
  mul := Qcmult;
  div := Qcdiv;
  ltb := Qc_ltb;
  round1 := Qc_round1
}.

(** A decimal literal [n/d] as an exact number. *)
Definition dec (n : Z) (d : positive) : Qc := Q2Qc (n # d).

(** The value of an exact number as a reduced fraction. *)
Definition frac (q : Qc) : Z * positive := (Qnum (this q), Qden (this q)).

(* ================================================================== *)
(** ** Collaborators for the examples *)

Module Sample.

(** Stable insertion sort by a numeric key, as [list.sort(key=...)]. *)
Fixpoint insert_by (key : Port.t Qc -> Qc) (p : Port.t Qc)
  (l : list (Port.t Qc)) : list (Port.t Qc) :=
  match l with
  | [] => [p]
  | q :: l' =>
      if Qc_ltb (key p) (key q) then p :: q :: l'
      else q :: insert_by key p l'
  end.

Definition sort_by (key : Port.t Qc -> Qc) (l : list (Port.t Qc))
  : list (Port.t Qc) :=
  fold_right (insert_by key) [] l.

Definition leb (a b : Qc) : bool := negb (Qc_ltb b a).

Definition facing (lo hi : Z) (p : Port.t Qc) : bool :=
  leb (of_int lo) (Port.orientation p) && leb (Port.orientation p) (of_int hi).

(** Modelled from the spec: the direction-bucketing primitive
    [direction_ports_from_list_ports] of [pp.routing.utils], which is not
    among the sources.  Ports are bucketed by the edge they face (their
    orientation in degrees, within 45 degrees of the edge's normal); south
    and north buckets run left to right, east and west ones bottom to top. *)
Definition direction_ports_from_list_ports (ports : list (Port.t Qc))
  : DirectionPorts Qc :=
  let e p := facing 0 45 p || facing 315 360 p in
  let n p := negb (e p) && facing 45 135 p in
  let w p := negb (e p) && negb (n p) && facing 135 225 p in
  let s p := negb (e p) && negb (n p) && negb (w p) in
  mkDirectionPorts
    (sort_by Port.y (filter e ports))
    (sort_by Port.x (filter n ports))
    (sort_by Port.y (filter w ports))
    (sort_by Port.x (filter s ports)).

(** The ports of a placed pad, for the examples: the port sits at the
    position the reference was given and is turned by its rotation. *)
Definition transform_port (r : ComponentReference.t Qc) (p : Port.t Qc)
  : Port.t Qc :=
  Port.mk (Port.name p)
    (fst (ComponentReference.position r))
    (snd (ComponentReference.position r))
    (Port.orientation p +: of_int (ComponentReference.rotation r)).

(** A placed reference has no attribute [ref]. *)
Definition reference_ref (r : ComponentReference.t Qc) (position : Qc * Qc)
  (rotation : Z) (port_id : string) : Exn + ComponentReference.t Qc :=
  inl (AttributeError "ref").

(** A route constructor returning one element per route, labelled with the
    two port names. *)
Definition get_route (p1 p0 : Port.t Qc) : Route Qc :=
  mkRoute [LabelElement (Port.name p1 ++ "-" ++ Port.name p0)%string].

(** A 100 x 100 pad whose port ["W"] sits at its origin. *)
Definition pad : Component.t Qc :=
  Component.mk [("W", Port.mk "W" (of_int 0) (of_int 0) (of_int 180))]
    (of_int (-50)) (of_int 100).

Definition port (name : string) (x y : Qc) (orientation : Z) : Port.t Qc :=
  Port.mk name x y (of_int orientation).

(** A device with one port on each edge. *)
Definition device : Component.t Qc :=
  Component.mk
    [("n", port "n" (of_int 0) (of_int 10) 90);
     ("w", port "w" (of_int (-10)) (of_int 0) 180);
     ("s", port "s" (of_int 0) (of_int (-10)) 270);
     ("e", port "e" (of_int 10) (of_int 0) 0)]
    (of_int (-10)) (of_int 20).

(** A device with a single port, on its south edge at [x]. *)
Definition device1 (x : Qc) : Component.t Qc :=
  Component.mk [("s", port "s" x (of_int 10) 270)] (of_int 10) (of_int 20).


(** A device without ports. *)
Definition device0 : Component.t Qc :=
  Component.mk [] (of_int 0) (of_int 20).

(** The call [route_pad_array(c, max_y0_optical=.., connected_port_list_ids=..,
    n_ports=.., pad_indices=.., x_pad_offset=..)], the other arguments at
    the defaults of the signature and every port selected. *)
Definition call (c : Component.t Qc) (max_y0_optical : option Qc)
  (connected_port_list_ids : option (list string)) (n_ports : Z)
  (pad_indices : option (list Z)) (x_pad_offset : Qc) : Args.t Qc :=
  Args.mk c (of_int 150) (Instance pad) (of_int 20) max_y0_optical (of_int 4)
    (dec 1 10) connected_port_list_ids n_ports None pad_indices get_route
    "W" (-90) x_pad_offset None (fun d => d).

(** The call [route_pad_array(c)]. *)
Definition defaults (c : Component.t Qc) : Args.t Qc :=
  call c None None 1 None (of_int 0).

(** The one-row call [route_pad_array(c, port_labels=.., excluded_ports=..,
    connected_port_list_ids=.., port_name=..)], the rest at the defaults. *)
Definition select (c : Component.t Qc)
  (port_labels excluded_ports connected_port_list_ids : option (list string))
  (port_name : string) : Args.t Qc :=
  Args.mk c (of_int 150) (Instance pad) (of_int 20) None (of_int 4)
    (dec 1 10) connected_port_list_ids 1 excluded_ports None get_route
    port_name (-90) (of_int 0) port_labels (fun d => d).

Definition run (a : Args.t Qc)
  : M Qc (list (Element Qc) * list (list (PadObj Qc)) * Qc) :=
  route_pad_array direction_ports_from_list_ports transform_port
    reference_ref a.

End Sample.

(* ================================================================== *)
(** ** Vocabulary of the properties *)

Definition succeeds {num A : Type} (m : M num A) : bool :=
  match outcome m with
  | inr _ => true
  | inl _ => false
  end.

(** The device ports handed to the route constructor, in call order. *)
Definition routed_ports {num : Type} (tr : list (Event num))
  : list (Port.t num) :=
  flat_map
    (fun ev => match ev with RouteBuilt p1 _ => [p1] | PadPlaced _ => [] end)
    tr.




(** The baseline as the specification words it: the value rounded to one
    decimal place, replaced by the ceiling when that is smaller. *)
Definition clamped_baseline_y (y_min fanout_length pad_port_x : Qc) (K : Z)
  (separation : Qc) (ceiling : option Qc) : Qc :=
  let v :=
    round1 (y_min -: fanout_length -: pad_port_x
            -: of_int K /: of_int 2 *: separation) in
  match ceiling with
  | Some c => py_min c v
  | None => v
  end.

(** The references of a single row (lines 147-154 with [j = 0] and one
    row): the pad prototype placed, for every slot [i] of [pad_indices], at
    [x_c - offset + i * io_sep] and at the baseline less [0 * y_sep]. *)
Definition single_row_refs {num : Type} {NumOps : Number num}
  (a : Args.t num) (ports : list (Port.t num)) (pad_port : Port.t num)
  (pad_indices : list Z) : list (ComponentReference.t num) :=
  let pad := resolve_pad (Args.pad a) in
  let io_sep := Args.pad_spacing a in
  let K := padding_factor (len ports) in
  let y0_optical :=
    baseline_y (Component.ymin (Args.component a)) (Args.fanout_length a)
      (Port.x pad_port) K (Args.straight_separation a)
      (Args.max_y0_optical a) in
  let y_sep :=
    row_pitch (Component.height pad) K 1 (Args.straight_separation a)
      (Args.bend_radius a) in
  let offset := slot_offset (len ports) io_sep (Args.x_pad_offset a) in
  map (fun i =>
         ComponentReference.mk pad
           (x_center ports -: offset +: of_int i *: io_sep,
            y0_optical -: of_int 0 *: y_sep)
           (Args.pad_rotation a) (Args.port_name a))
    pad_indices.

(* ================================================================== *)
(** ** Reasoning about computations *)

Section MonadFacts.
Context {num : Type}.

Lemma bind_ret {A B : Type} (a : A) (f : A -> M num B) :
  bind (ret a) f = f a.
Proof. unfold bind, ret. destruct (f a). reflexivity. Qed.

Lemma bind_value {A B : Type} (m : M num A) (f : A -> M num B) tr (b : B) :
  bind m f = (tr, inr b) ->
  exists t1 a t2, m = (t1, inr a) /\ f a = (t2, inr b) /\ tr = t1 ++ t2.
Proof.
  destruct m as [t1 [e | a]]; simpl; [discriminate |].
  destruct (f a) as [t2 r] eqn:Hf. intros H. inversion H; subst.
  exists t1, a, t2. auto.
Qed.

Lemma bind_fails {A B : Type} (m : M num A) (f : A -> M num B) :
  (forall a, exists e, outcome (f a) = inl e) ->
  exists e, outcome (bind m f) = inl e.
Proof.
  intros Hf. destruct m as [t [e | a]]; simpl.
  - now exists e.
  - destruct (Hf a) as [e He]. destruct (f a) as [t' r]. simpl in *.
    now exists e.
Qed.

Lemma mapM_getitem_trace (d : PortDict num) ks :
  trace (mapM (getitem d) ks) = [].
Proof.
  induction ks as [| k ks IH]; simpl; [reflexivity |].
  unfold getitem at 1. destruct (lookup d k) as [p |]; [| reflexivity].
  rewrite bind_ret. destruct (mapM (getitem d) ks) as [t [e | ps]];
    simpl in *; subst; reflexivity.
Qed.

Lemma selected_ports_trace (a : Args.t num) : trace (selected_ports a) = [].
Proof.
  unfold selected_ports. destruct (Args.port_labels a) as [lbls |].
  - pose proof (mapM_getitem_trace (Component.ports (Args.component a)) lbls)
      as Ht.
    destruct (mapM _ lbls) as [t [e | ps]]; simpl in *; subst; reflexivity.
  - reflexivity.
Qed.

Lemma selected_ports_value (a : Args.t num) ports :
  outcome (selected_ports a) = inr ports -> selected_ports a = ret ports.
Proof.
  intros H. pose proof (selected_ports_trace a) as Ht.
  destruct (selected_ports a) as [t r]. simpl in *. now subst.
Qed.

Lemma len_range (n : Z) : 0 <= n -> len (range n) = n.
Proof.
  intros Hn. unfold len, range. rewrite length_map, length_seq. lia.
Qed.

Lemma len_nonneg {A : Type} (l : list A) : 0 <= len l.
Proof. unfold len. lia. Qed.

Lemma len_zero {A : Type} (l : list A) : len l = 0 -> l = [].
Proof. unfold len. destruct l; [reflexivity | simpl; lia]. Qed.

End MonadFacts.

(* ================================================================== *)
(** ** The loops *)

Section LoopFacts.
Context {num : Type} {NumOps : Number num}.
Variable transform_port : ComponentReference.t num -> Port.t num -> Port.t num.
Variable reference_ref :
  ComponentReference.t num -> num * num -> Z -> string ->
  Exn + ComponentReference.t num.

Lemma bind_ret_r {A : Type} (m : M num A) : bind m (fun a => ret a) = m.
Proof.
  destruct m as [t [e | a]]; simpl; [reflexivity |].
  now rewrite app_nil_r.
Qed.

Lemma bind_fails_after {A B : Type} (m : M num A) (f : A -> M num B) :
  (forall t a, m = (t, inr a) -> exists e, outcome (f a) = inl e) ->
  exists e, outcome (bind m f) = inl e.
Proof.
  intros Hf. destruct m as [t [e | a]]; simpl.
  - now exists e.
  - destruct (Hf t a eq_refl) as [e He]. destruct (f a) as [t' r].
    simpl in *. now exists e.
Qed.

Lemma mapM_length {A B : Type} (f : A -> M num B) xs tr ys :
  mapM f xs = (tr, inr ys) -> length ys = length xs.
Proof.
  revert tr ys. induction xs as [| a xs IH]; simpl; intros tr ys H.
  - inversion H. reflexivity.
  - apply bind_value in H as (t1 & b & t2 & _ & H & _).
    apply bind_value in H as (t3 & bs & t4 & Hbs & H & _).
    inversion H; subst. simpl. f_equal. eapply IH. eassumption.
Qed.

Lemma routed_ports_app (t1 t2 : list (Event num)) :
  routed_ports (t1 ++ t2) = routed_ports t1 ++ routed_ports t2.
Proof. apply flat_map_app. Qed.

Lemma mapM_no_routes {A B : Type} (f : A -> M num B) xs :
  (forall a, routed_ports (trace (f a)) = []) ->
  routed_ports (trace (mapM f xs)) = [].
Proof.
  intros Hf. induction xs as [| a xs IH]; simpl; [reflexivity |].
  specialize (Hf a). destruct (f a) as [t1 [e | b]]; simpl in *; [exact Hf |].
  destruct (mapM f xs) as [t2 [e | bs]]; simpl in *;
    rewrite ?app_nil_r, routed_ports_app, Hf, IH; reflexivity.
Qed.

Lemma foldM_no_routes {A S : Type} (body : S -> A -> M num S) xs :
  (forall s a, routed_ports (trace (body s a)) = []) ->
  forall s, routed_ports (trace (foldM body xs s)) = [].
Proof.
  intros Hb. induction xs as [| a xs IH]; simpl; intros s; [reflexivity |].
  specialize (Hb s a). destruct (body s a) as [t1 [e | s']]; simpl in *;
    [exact Hb |].
  specialize (IH s'). destruct (foldM body xs s') as [t2 r]; simpl in *.
  now rewrite routed_ports_app, Hb, IH.
Qed.

Lemma PadObj_ref_no_routes o position rotation port_id :
  routed_ports
    (trace (PadObj_ref reference_ref o position rotation port_id)) = [].
Proof.
  destruct o as [c | r0]; simpl; [reflexivity |].
  destruct (reference_ref r0 position rotation port_id); reflexivity.
Qed.

Lemma place_rows_no_routes n_ports pad_indices x_c offset io_sep y0 y_sep
  pad_rotation port_name pads :
  routed_ports
    (trace (place_rows reference_ref n_ports pad_indices x_c offset io_sep y0
              y_sep pad_rotation port_name pads)) = [].
Proof.
  unfold place_rows. apply foldM_no_routes. intros s j.
  apply mapM_no_routes. intros ip. apply PadObj_ref_no_routes.
Qed.

(** What every round establishes holds after a loop of at least one round. *)
Lemma foldM_last_round {A S : Type} (body : S -> A -> M num S)
  (P : S -> Prop) xs :
  (forall s a t s', body s a = (t, inr s') -> P s') ->
  xs <> [] ->
  forall s tr s', foldM body xs s = (tr, inr s') -> P s'.
Proof.
  intros Hb. induction xs as [| a xs IH]; [congruence |].
  intros _ s tr s' H. simpl in H.
  apply bind_value in H as (t1 & s1 & t2 & H1 & H2 & _).
  destruct xs as [| b xs].
  - simpl in H2. inversion H2; subst. eapply Hb. eassumption.
  - eapply IH; [congruence | eassumption].
Qed.

(** After at least one round, a row is no longer than the list of slots. *)
Lemma place_rows_length n_ports pad_indices x_c offset io_sep y0 y_sep
  pad_rotation port_name pads tr pads' :
  0 < n_ports ->
  place_rows reference_ref n_ports pad_indices x_c offset io_sep y0 y_sep
    pad_rotation port_name pads = (tr, inr pads') ->
  (length pads' <= length pad_indices)%nat.
Proof.
  unfold place_rows. intros Hn H.
  eapply foldM_last_round with (P := fun row =>
    (length row <= length pad_indices)%nat); [| | exact H].
  - intros s j t row Hrow. apply mapM_length in Hrow.
    rewrite Hrow, length_combine. lia.
  - unfold range. destruct (Z.to_nat n_ports) eqn:E; [lia | discriminate].
Qed.

Section Pairing.
Variable get_route_function : Port.t num -> Port.t num -> Route num.
Variable port_name : string.
Variable ordered_ports : list (Port.t num).
Variable pads : list (PadObj num).

Local Abbreviation pair_one :=
  (pair_port transform_port get_route_function port_name ordered_ports pads).

Lemma pair_port_value elements i tr elements' :
  pair_one elements i = (tr, inr elements') ->
  exists p1 p0,
    nth_error ordered_ports (Z.to_nat i) = Some p1 /\
    tr = [RouteBuilt p1 p0].
Proof.
  unfold pair_port, index, getitem. intros H.
  destruct (nth_error pads (Z.to_nat i)) as [pad_i |]; [| discriminate].
  rewrite bind_ret in H.
  destruct (lookup (PadObj_ports transform_port pad_i) port_name) as [p0 |];
    [| discriminate].
  rewrite bind_ret in H.
  destruct (nth_error ordered_ports (Z.to_nat i)) as [p1 |]; [| discriminate].
  rewrite bind_ret in H. simpl in H. inversion H; subst.
  exists p1, p0. auto.
Qed.

Lemma pair_port_out_of_row elements i :
  (length pads <= Z.to_nat i)%nat ->
  pair_one elements i = ([], inl IndexError).
Proof.
  intros Hi. unfold pair_port, index.
  apply nth_error_None in Hi. rewrite Hi. reflexivity.
Qed.

Lemma pair_row_routed xs : forall elements tr elements',
  foldM pair_one xs elements = (tr, inr elements') ->
  Forall2 (fun i p => nth_error ordered_ports (Z.to_nat i) = Some p)
    xs (routed_ports tr).
Proof.
  induction xs as [| i xs IH]; simpl; intros elements tr elements' H.
  - inversion H; subst. constructor.
  - apply bind_value in H as (t1 & els1 & t2 & H1 & H2 & ->).
    apply pair_port_value in H1 as (p1 & p0 & Hp1 & ->).
    apply IH in H2. simpl. constructor; assumption.
Qed.

Lemma pair_row_fails xs i :
  In i xs -> (length pads <= Z.to_nat i)%nat ->
  forall elements, exists e, outcome (foldM pair_one xs elements) = inl e.
Proof.
  intros Hin Hi. induction xs as [| j xs IH]; [contradiction |].
  intros elements. simpl. destruct Hin as [-> | Hin].
  - rewrite pair_port_out_of_row by assumption. now exists IndexError.
  - apply bind_fails. intros s'. now apply IH.
Qed.

End Pairing.

Lemma routed_range (l : list (Port.t num)) n : forall s ps,
  Forall2 (fun i p => nth_error l (Z.to_nat i) = Some p)
    (map Z.of_nat (seq s n)) ps ->
  ps = firstn n (skipn s l).
Proof.
  induction n as [| n IH]; intros s ps H; simpl in *.
  - inversion H. reflexivity.
  - inversion H as [| i p is' ps' Hp Hrest]; subst.
    rewrite Nat2Z.id in Hp. apply IH in Hrest.
    rewrite Hrest. clear - Hp. revert l Hp.
    induction s as [| s IHs]; intros [| q l] Hp; simpl in *;
      try discriminate.
    + now inversion Hp.
    + now apply IHs.
Qed.

Lemma in_range (n : Z) (k : nat) : (Z.of_nat k < n) -> In (Z.of_nat k) (range n).
Proof.
  intros Hk. unfold range. apply in_map, in_seq. lia.
Qed.

End LoopFacts.
(* ================================================================== *)
(** ** Structural properties *)

Section Structural.
Context {num : Type} {NumOps : Number num}.
Variable direction_ports_from_list_ports :
  list (Port.t num) -> DirectionPorts num.
Variable transform_port : ComponentReference.t num -> Port.t num -> Port.t num.
Variable reference_ref :
  ComponentReference.t num -> num * num -> Z -> string ->
  Exn + ComponentReference.t num.

Local Abbreviation run :=
  (route_pad_array direction_ports_from_list_ports transform_port
     reference_ref).

Lemma resolve_pad_indices_value o nb t (l : list Z) :
  resolve_pad_indices (num := num) o nb = (t, inr l) ->
  t = [] /\ (0 <= nb -> len l = nb).
Proof.
  unfold resolve_pad_indices, assert. destruct o as [l' |].
  - destruct (len l' =? nb) eqn:E; simpl; intros H; inversion H; subst.
    split; [reflexivity |]. intros _. now apply Z.eqb_eq.
  - intros H. inversion H; subst. split; [reflexivity |]. apply len_range.
Qed.

Lemma final_ordered_ports_trace component ids
  (ordered_ports : list (Port.t num)) :
  trace (final_ordered_ports component ids ordered_ports) = [].
Proof.
  unfold final_ordered_ports. destruct ids as [[| i ids] |]; try reflexivity.
  apply mapM_getitem_trace.
Qed.

Lemma nonempty_len {A : Type} (l : list A) : l <> [] -> (len l =? 0) = false.
Proof.
  intros Hne. apply Z.eqb_neq. intros E. now apply len_zero in E.
Qed.

(** The steps of a call that returns, on a non-empty selection. *)
Lemma run_value (a : Args.t num) ports tr els rows y0 :
  outcome (selected_ports a) = inr ports -> ports <> [] ->
  run a = (tr, inr (els, rows, y0)) ->
  let N := len ports in
  let pad := resolve_pad (Args.pad a) in
  let K := padding_factor N in
  let nb := N / Args.n_ports a in
  exists pad_port pad_indices t1 pads ordered t2,
    lookup (Component.ports pad) (Args.port_name a) = Some pad_port /\
    Args.n_ports a <> 0 /\
    resolve_pad_indices (num := num) (Args.pad_indices a) nb
    = ([], inr pad_indices) /\
    place_rows reference_ref (Args.n_ports a) pad_indices (x_center ports)
      (slot_offset nb (Args.pad_spacing a) (Args.x_pad_offset a))
      (Args.pad_spacing a) y0
      (row_pitch (Component.height pad) K (Args.n_ports a)
         (Args.straight_separation a) (Args.bend_radius a))
      (Args.pad_rotation a) (Args.port_name a)
      (repeat (Proto pad) (Z.to_nat N)) = (t1, inr pads) /\
    final_ordered_ports (Args.component a) (Args.connected_port_list_ids a)
      (compose_ordered_ports (direction_ports_from_list_ports ports))
    = ([], inr ordered) /\
    foldM
      (pair_port transform_port (Args.get_route_function a)
         (Args.port_name a) ordered pads)
      (range N) [] = (t2, inr els) /\
    rows = [pads] /\
    y0 = baseline_y (Component.ymin (Args.component a))
           (Args.fanout_length a) (Port.x pad_port) K
           (Args.straight_separation a) (Args.max_y0_optical a) /\
    tr = t1 ++ t2.
Proof.
  intros Hsel Hne H N pad K nb.
  unfold route_pad_array in H.
  rewrite (selected_ports_value _ Hsel), bind_ret, (nonempty_len Hne) in H.
  unfold getitem at 1 in H. fold pad in H.
  destruct (lookup (Component.ports pad) (Args.port_name a)) as [pad_port |];
    [| discriminate].
  rewrite bind_ret in H. unfold floordiv in H.
  destruct (Args.n_ports a =? 0) eqn:En; [discriminate |].
  rewrite bind_ret in H. fold N K nb in H.
  apply bind_value in H as (t0 & pad_indices & ta & Hidx & H & ->).
  destruct (resolve_pad_indices_value _ _ Hidx) as [-> _].
  apply bind_value in H as (t1 & pads & tb & Hplace & H & ->).
  apply bind_value in H as (t3 & ordered & tc & Hord & H & ->).
  pose proof (final_ordered_ports_trace (Args.component a)
                (Args.connected_port_list_ids a)
                (compose_ordered_ports
                   (direction_ports_from_list_ports ports))) as Ht3.
  rewrite Hord in Ht3. simpl in Ht3. subst t3.
  apply bind_value in H as (t2 & els' & td & Hpair & H & ->).
  inversion H; subst. clear H.
  unfold pair_rows in Hpair. simpl in Hpair. rewrite bind_ret_r in Hpair.
  exists pad_port, pad_indices, t1, pads, ordered, t2.
  repeat split; try assumption.
  - now apply Z.eqb_neq.
  - simpl. now rewrite app_nil_r.
Qed.

Lemma resolve_pad_indices_trace o nb :
  trace (resolve_pad_indices (num := num) o nb) = [].
Proof.
  unfold resolve_pad_indices, assert. destruct o as [l |]; [| reflexivity].
  now destruct (len l =? nb).
Qed.

Lemma half_length {A : Type} (l : list A) :
  Z.to_nat (len l / 2) = (length l / 2)%nat.
Proof.
  unfold len. change 2 with (Z.of_nat 2).
  now rewrite <- Nat2Z.inj_div, Nat2Z.id.
Qed.

Lemma to_nat_len {A : Type} (l : list A) : Z.to_nat (len l) = length l.
Proof. unfold len. apply Nat2Z.id. Qed.

Lemma walk_permutation {A : Type} (h : nat) (n w s e : list A) :
  Permutation (rev (firstn h n) ++ rev w ++ s ++ e ++ rev (skipn h n))
    (n ++ w ++ s ++ e).
Proof.
  rewrite <- (firstn_skipn h n) at 3.
  rewrite <- (Permutation_rev (firstn h n)), <- (Permutation_rev w),
    <- (Permutation_rev (skipn h n)).
  rewrite <- app_assoc. apply Permutation_app_head.
  replace (w ++ s ++ e ++ skipn h n) with ((w ++ s ++ e) ++ skipn h n)
    by (now rewrite <- !app_assoc).
  apply Permutation_app_comm.
Qed.

(** C1. On a non-empty selection with no connection-id override (none
    given, or an empty one) the final ordered port sequence is
    north_start + west + south + east + north_finish: the first [len // 2]
    north ports reversed, the west bucket reversed, south and east as
    bucketed, the remaining north ports reversed.  It holds the ports of
    the four buckets, each as often as the buckets do, and a call that
    returns has routed the first N of it in that order. *)
Theorem perimeter_walk_order (a : Args.t num) ports :
  outcome (selected_ports a) = inr ports -> ports <> [] ->
  Args.connected_port_list_ids a = None \/
  Args.connected_port_list_ids a = Some [] ->
  let dp := direction_ports_from_list_ports ports in
  let h := (length (dirN dp) / 2)%nat in
  let walk :=
    rev (firstn h (dirN dp)) ++ rev (dirW dp) ++ dirS dp ++ dirE dp
    ++ rev (skipn h (dirN dp)) in
  final_ordered_ports (Args.component a) (Args.connected_port_list_ids a)
    (compose_ordered_ports dp) = ret walk /\
  Permutation walk (dirN dp ++ dirW dp ++ dirS dp ++ dirE dp) /\
  forall tr v, run a = (tr, inr v) ->
    routed_ports tr = firstn (length ports) walk.
Proof.
  intros Hsel Hne Hnone dp h walk.
  assert (Hwalk : compose_ordered_ports dp = walk).
  { unfold compose_ordered_ports, walk, h. now rewrite half_length. }
  assert (Hfinal : forall l,
            final_ordered_ports (Args.component a)
              (Args.connected_port_list_ids a) l = ret l).
  { intros l. destruct Hnone as [-> | ->]; reflexivity. }
  split; [| split].
  - now rewrite Hfinal, Hwalk.
  - apply walk_permutation.
  - intros tr [[els rows] y0] H.
    destruct (run_value _ Hsel Hne H)
      as (pad_port & idx & t1 & pads & ordered & t2 &
          _ & _ & _ & Hplace & Hord & Hpair & _ & _ & ->).
    rewrite Hfinal in Hord. inversion Hord; subst ordered.
    pose proof (place_rows_no_routes reference_ref (Args.n_ports a) idx
      (x_center ports)
      (slot_offset (len ports / Args.n_ports a) (Args.pad_spacing a)
         (Args.x_pad_offset a))
      (Args.pad_spacing a) y0
      (row_pitch (Component.height (resolve_pad (Args.pad a)))
         (padding_factor (len ports)) (Args.n_ports a)
         (Args.straight_separation a) (Args.bend_radius a))
      (Args.pad_rotation a) (Args.port_name a)
      (repeat (Proto (resolve_pad (Args.pad a))) (Z.to_nat (len ports))))
      as Hno.
    rewrite Hplace in Hno. simpl in Hno.
    rewrite routed_ports_app, Hno. simpl.
    apply pair_row_routed in Hpair. unfold range in Hpair.
    apply routed_range in Hpair. simpl in Hpair.
    unfold dp in Hwalk. now rewrite Hpair, to_nat_len, Hwalk.
Qed.

Lemma padding_factor_parity (n : Z) :
  Z.even (padding_factor n) = true /\
  (Z.odd n = true -> padding_factor n = n + 1) /\
  (Z.even n = true -> padding_factor n = n).
Proof.
  unfold padding_factor. rewrite Zmod_even, <- Z.negb_even.
  destruct (Z.even n) eqn:E; simpl; repeat split; intros;
    try assumption; try discriminate; try reflexivity.
  now rewrite Z.add_1_r, Z.even_succ, <- Z.negb_even, E.
Qed.

Lemma bind_ext {A B : Type} (m : M num A) (f g : A -> M num B) :
  (forall a, f a = g a) -> bind m f = bind m g.
Proof.
  intros Hfg. destruct m as [t [e | a]]; simpl; [reflexivity |].
  now rewrite Hfg.
Qed.

Lemma bind_fails_l {A B : Type} (m : M num A) (f : A -> M num B) :
  (exists e, outcome m = inl e) -> exists e, outcome (bind m f) = inl e.
Proof.
  intros [e He]. destruct m as [t [e' | a]]; simpl in *; [| discriminate].
  now exists e'.
Qed.

(** C3. With more than one row, a call on a non-empty selection does not
    return: the single row kept has at most [N // n_ports] pads, fewer than
    the N the pairing loop indexes. *)
Theorem multirow_call_fails (a : Args.t num) ports :
  outcome (selected_ports a) = inr ports -> ports <> [] ->
  1 < Args.n_ports a ->
  exists e, outcome (run a) = inl e.
Proof.
  intros Hsel Hne Hn. unfold route_pad_array.
  rewrite (selected_ports_value _ Hsel), bind_ret, (nonempty_len Hne).
  assert (HN : 0 < len ports).
  { pose proof (len_nonneg ports). pose proof (nonempty_len Hne) as E.
    apply Z.eqb_neq in E. lia. }
  apply bind_fails. intros pad_port. unfold floordiv.
  destruct (Args.n_ports a =? 0) eqn:En; [apply Z.eqb_eq in En; lia |].
  rewrite bind_ret.
  assert (Hnb : 0 <= len ports / Args.n_ports a < len ports).
  { split; [apply Z.div_pos; lia | apply Z.div_lt; lia]. }
  apply bind_fails_after. intros t0 idx Hidx.
  apply resolve_pad_indices_value in Hidx as [_ Hlen].
  specialize (Hlen (proj1 Hnb)).
  apply bind_fails_after. intros t1 pads Hplace.
  apply place_rows_length in Hplace; [| lia].
  apply bind_fails. intros ordered.
  apply bind_fails_l. unfold pair_rows. simpl. apply bind_fails_l.
  apply pair_row_fails with (i := Z.of_nat (length pads)).
  - apply in_range. destruct Hnb as [_ Hlt]. rewrite <- Hlen in Hlt.
    unfold len in Hlt at 1. lia.
  - rewrite Nat2Z.id. lia.
Qed.

(** C9 (amended). For a non-negative number of rows, the call with
    [pad_indices] set to the identity sequence [0 .. nb_per_row - 1] is the
    call with [pad_indices] omitted: same result, same objects
    instantiated, same failure. *)
Theorem identity_pad_indices_is_default (a : Args.t num) ports :
  outcome (selected_ports a) = inr ports -> 0 <= Args.n_ports a ->
  run (Args.with_pad_indices a
         (Some (range (len ports / Args.n_ports a)))) =
  run (Args.with_pad_indices a None).
Proof.
  intros Hsel Hn. unfold route_pad_array.
  change (selected_ports (Args.with_pad_indices a None))
    with (selected_ports a).
  change (selected_ports (Args.with_pad_indices a
            (Some (range (len ports / Args.n_ports a)))))
    with (selected_ports a).
  rewrite (selected_ports_value _ Hsel), !bind_ret.
  destruct (len ports =? 0); [reflexivity |].
  cbn [Args.with_pad_indices Args.component Args.pad_spacing Args.pad
       Args.fanout_length Args.max_y0_optical Args.straight_separation
       Args.bend_radius Args.connected_port_list_ids Args.n_ports
       Args.excluded_ports Args.pad_indices Args.get_route_function
       Args.port_name Args.pad_rotation Args.x_pad_offset Args.port_labels
       Args.select_ports].
  apply bind_ext. intros pad_port. unfold floordiv.
  destruct (Args.n_ports a =? 0) eqn:En; [reflexivity |].
  rewrite !bind_ret. apply Z.eqb_neq in En.
  unfold resolve_pad_indices, assert.
  rewrite len_range, Z.eqb_refl, bind_ret; [reflexivity |].
  apply Z.div_pos; [apply len_nonneg | lia].
Qed.

(** C7 (amended). On a non-empty selection, with the pad's port present and
    a non-zero number of rows, an explicit [pad_indices] whose length is not
    [N // n_ports] makes the call fail with an assertion failure before any
    pad is placed; an omitted [pad_indices] stands for the identity
    sequence [0 .. nb_per_row - 1]. *)
Theorem pad_indices_length_contract (a : Args.t num) ports l :
  outcome (selected_ports a) = inr ports -> ports <> [] ->
  lookup (Component.ports (resolve_pad (Args.pad a))) (Args.port_name a)
    <> None ->
  Args.n_ports a <> 0 ->
  Args.pad_indices a = Some l ->
  len l <> len ports / Args.n_ports a ->
  run a = ([], inl AssertionError) /\
  resolve_pad_indices (num := num) None (len ports / Args.n_ports a)
  = ret (range (len ports / Args.n_ports a)).
Proof.
  intros Hsel Hne Hport Hn Hl Hlen. split; [| reflexivity].
  unfold route_pad_array.
  rewrite (selected_ports_value _ Hsel), bind_ret, (nonempty_len Hne).
  unfold getitem at 1.
  destruct (lookup _ (Args.port_name a)) as [pad_port |]; [| contradiction].
  rewrite bind_ret. unfold floordiv.
  destruct (Args.n_ports a =? 0) eqn:En; [apply Z.eqb_eq in En; lia |].
  rewrite bind_ret, Hl. unfold resolve_pad_indices, assert.
  destruct (len l =? len ports / Args.n_ports a) eqn:El;
    [apply Z.eqb_eq in El; contradiction | reflexivity].
Qed.

Lemma mapM_getitem_missing (d : PortDict num) ks i :
  In i ks -> lookup d i = None ->
  exists k, mapM (getitem d) ks = ([], inl (KeyError k)).
Proof.
  intros Hin Hi. induction ks as [| k ks IH]; [contradiction |].
  simpl. unfold getitem at 1. destruct (lookup d k) as [p |] eqn:Ek.
  - rewrite bind_ret. destruct Hin as [-> | Hin]; [congruence |].
    destruct (IH Hin) as [k' Hk']. rewrite Hk'. now exists k'.
  - now exists k.
Qed.

(** C4 (amended). A call that fails returns no routes, pad rows or baseline.
    A port label absent from the device's port mapping makes the call fail
    before any pad is placed or route built.  A connection id absent from
    it, on a non-empty selection, makes the call fail before any route is
    built; that lookup comes after the placement loop, so the pads of the
    row may have been placed by then. *)
Theorem not_found_lookup_aborts (a : Args.t num) :
  (forall lbls l,
     Args.port_labels a = Some lbls -> In l lbls ->
     lookup (Component.ports (Args.component a)) l = None ->
     exists k, run a = ([], inl (KeyError k))) /\
  (forall ports ids i,
     outcome (selected_ports a) = inr ports -> ports <> [] ->
     Args.connected_port_list_ids a = Some ids -> In i ids ->
     lookup (Component.ports (Args.component a)) i = None ->
     exists tr e, run a = (tr, inl e) /\ routed_ports tr = []).
Proof.
  split.
  { intros lbls l Hlbls Hin Hl. unfold route_pad_array, selected_ports.
    rewrite Hlbls.
    destruct (mapM_getitem_missing (Component.ports (Args.component a))
                lbls l Hin Hl) as [k Hk].
    rewrite Hk. now exists k. }
  intros ports ids i Hsel Hne Hids Hin Hi. unfold route_pad_array.
  rewrite (selected_ports_value _ Hsel), bind_ret, (nonempty_len Hne).
  unfold getitem at 1.
  destruct (lookup _ (Args.port_name a)) as [pad_port |];
    [| now exists [], (KeyError (Args.port_name a))].
  rewrite bind_ret. unfold floordiv.
  destruct (Args.n_ports a =? 0); [now exists [], ZeroDivisionError |].
  rewrite bind_ret.
  pose proof (resolve_pad_indices_trace (Args.pad_indices a)
                (len ports / Args.n_ports a)) as Ht0.
  destruct (resolve_pad_indices _ _) as [t0 [e | idx]]; simpl in Ht0; subst t0;
    [now exists [], e |].
  change (@nil (Event num), @inr Exn (list Z) idx) with (ret (num := num) idx).
  rewrite bind_ret.
  match goal with
  | |- context [bind (place_rows ?r ?n ?ix ?xc ?o ?s ?y ?ys ?rot ?pn ?ps) _] =>
      pose proof (place_rows_no_routes r n ix xc o s y ys rot pn ps) as Ht1;
      destruct (place_rows r n ix xc o s y ys rot pn ps) as [t1 [e | pads]]
  end; simpl in Ht1.
  - now exists t1, e.
  - rewrite Hids. destruct ids as [| i0 ids]; [contradiction |].
    unfold final_ordered_ports.
    destruct (mapM_getitem_missing (Component.ports (Args.component a))
                (i0 :: ids) i Hin Hi) as [k Hk].
    rewrite Hk. simpl. exists (t1 ++ []), (KeyError k).
    now rewrite app_nil_r.
Qed.

(** C5. When no port is left after selection and exclusion, the call returns
    the empty route list, the empty list of pad rows and the y-coordinate 0;
    it raises nothing and instantiates nothing. *)
Theorem empty_selection_returns_empty (a : Args.t num) :
  outcome (selected_ports a) = inr [] ->
  run a = ([], inr ([], [], of_int 0)).
Proof.
  intros H. apply selected_ports_value in H.
  unfold route_pad_array. rewrite H. reflexivity.
Qed.

(** C10. An empty [connected_port_list_ids] list does not replace the
    computed sequence: the call behaves as the one with no override.  The
    override is applied when the list is non-empty, and then the computed
    sequence is not used. *)
Theorem empty_override_is_no_override (a : Args.t num) :
  run (Args.with_connected_port_list_ids a (Some [])) =
  run (Args.with_connected_port_list_ids a None) /\
  (forall ordered_ports,
     final_ordered_ports (Args.component a) (Some []) ordered_ports
     = ret ordered_ports) /\
  (forall i ids ordered_ports,
     final_ordered_ports (Args.component a) (Some (i :: ids)) ordered_ports
     = mapM (getitem (Component.ports (Args.component a))) (i :: ids)).
Proof.
  split; [| split].
  - unfold route_pad_array. reflexivity.
  - intros ordered_ports. reflexivity.
  - intros i ids ordered_ports. reflexivity.
Qed.

End Structural.

(* ================================================================== *)
(** ** Numeric properties, in exact arithmetic *)

Section Exact.
Open Scope Qc_scope.


Lemma of_int_opp (a : Z) : of_int (- a)%Z = - of_int a.
Proof.
  unfold of_int, QcNumber, Qcopp. apply Q2Qc_eq_iff. cbn [this Q2Qc].
  rewrite !Qred_correct, inject_Z_opp. reflexivity.
Qed.

Lemma of_int_0 : of_int 0%Z = 0.
Proof. apply Qc_is_canon. reflexivity. Qed.


Lemma of_int_2 : of_int 2%Z = 1 + 1.
Proof. apply Qc_is_canon. reflexivity. Qed.


Lemma two_nonzero : (1 + 1 : Qc) <> 0.
Proof. intros H. apply (f_equal this) in H. discriminate H. Qed.

End Exact.

Section ExactLayout.
Open Scope Qc_scope.
Variable direction_ports_from_list_ports :
  list (Port.t Qc) -> DirectionPorts Qc.
Variable transform_port : ComponentReference.t Qc -> Port.t Qc -> Port.t Qc.
Variable reference_ref :
  ComponentReference.t Qc -> Qc * Qc -> Z -> string ->
  Exn + ComponentReference.t Qc.

Local Abbreviation run :=
  (route_pad_array direction_ports_from_list_ports transform_port
     reference_ref).

Lemma outcome_value {A : Type} (m : M Qc A) v :
  outcome m = inr v -> exists tr, m = (tr, inr v).
Proof. destruct m as [tr r]. simpl. intros ->. now exists tr. Qed.

(** In exact arithmetic, on a non-empty selection the baseline a call
    returns is [y_min - fanout_length - pad_port_x - (K/2) * separation]
    rounded to one decimal place, K the even-padded port count; with a
    ceiling it is the minimum of the ceiling and that rounded value, rounded
    once more. *)
Lemma baseline_y_formula (a : Args.t Qc) ports els rows y0 :
  outcome (selected_ports a) = inr ports -> ports <> [] ->
  outcome (run a) = inr (els, rows, y0) ->
  exists pad_port,
    lookup (Component.ports (resolve_pad (Args.pad a))) (Args.port_name a)
    = Some pad_port /\
    let K := padding_factor (len ports) in
    let v :=
      round1 (Component.ymin (Args.component a) - Args.fanout_length a
              - Port.x pad_port
              - of_int K / of_int 2 * Args.straight_separation a) in
    y0 = match Args.max_y0_optical a with
         | Some ceiling => round1 (py_min ceiling v)
         | None => v
         end.
Proof.
  intros Hsel Hne H. apply outcome_value in H as [tr H].
  destruct (run_value _ _ _ _ Hsel Hne H)
    as (pad_port & idx & t1 & pads & ordered & t2 &
        Hport & _ & _ & _ & _ & _ & _ & Hy & _).
  exists pad_port. split; [exact Hport |]. intros K v.
  rewrite Hy. unfold baseline_y. cbn [add sub mul div QcNumber]. fold K.
  assert (E : Component.ymin (Args.component a) - Args.fanout_length a
              - Port.x pad_port
              + of_int (- K) / of_int 2 * Args.straight_separation a
              = Component.ymin (Args.component a) - Args.fanout_length a
                - Port.x pad_port
                - of_int K / of_int 2 * Args.straight_separation a).
  { rewrite of_int_opp, of_int_2. field. apply two_nonzero. }
  rewrite E. reflexivity.
Qed.











End ExactLayout.

(* ================================================================== *)
(** ** The properties on concrete calls *)

Section Examples.
Open Scope Qc_scope.

Local Abbreviation four_ports := (values (Component.ports Sample.device)).
Local Abbreviation one_port x := (values (Component.ports (Sample.device1 x))).

Lemma returns {A : Type} (m : M Qc A) :
  succeeds m = true -> exists tr v, m = (tr, inr v).
Proof.
  destruct m as [tr [e | v]]; unfold succeeds; simpl; [discriminate |].
  intros _. now exists tr, v.
Qed.

Lemma perimeter_walk_order_witness :
  exists tr v,
    Sample.run (Sample.defaults Sample.device) = (tr, inr v) /\
    map Port.name (routed_ports tr) = ["w"; "s"; "e"; "n"]%string.
Proof.
  destruct (returns (Sample.run (Sample.defaults Sample.device)))
    as (tr & v & H); [vm_compute; reflexivity |].
  exists tr, v. split; [exact H |].
  destruct (perimeter_walk_order Sample.direction_ports_from_list_ports
              Sample.transform_port Sample.reference_ref
              (Sample.defaults Sample.device) (ports := four_ports)
              eq_refl ltac:(discriminate) (or_introl eq_refl))
    as (_ & _ & Hrouted).
  rewrite (Hrouted tr v H). vm_compute. reflexivity.
Defined.

Lemma multirow_call_fails_witness :
  exists e,
    outcome (Sample.run (Sample.call (Sample.device1 0) None None 2 None 0))
    = inl e.
Proof.
  apply (multirow_call_fails Sample.direction_ports_from_list_ports
           Sample.transform_port Sample.reference_ref
           (Sample.call (Sample.device1 0) None None 2 None 0)
           (ports := one_port 0));
    [reflexivity | discriminate | reflexivity].
Defined.

(** One port and two rows: the row kept is empty and pairing its first pad
    raises. *)
Example multirow_single_port_raises :
  Sample.run (Sample.call (Sample.device1 0) None None 2 None 0)
  = ([], inl IndexError).
Proof. vm_compute. reflexivity. Qed.

Lemma empty_selection_returns_empty_witness :
  Sample.run
    (Sample.call Sample.device0 None (Some ["zz"%string]) 0 (Some [0%Z]) 0)
  = ([], inr ([], [], of_int 0)).
Proof.
  apply (empty_selection_returns_empty
           Sample.direction_ports_from_list_ports Sample.transform_port
           Sample.reference_ref). reflexivity.
Defined.

Lemma identity_pad_indices_is_default_witness :
  Sample.run
    (Args.with_pad_indices (Sample.defaults Sample.device)
       (Some [0; 1; 2; 3]%Z))
  = Sample.run (Args.with_pad_indices (Sample.defaults Sample.device) None).
Proof.
  apply (identity_pad_indices_is_default
           Sample.direction_ports_from_list_ports Sample.transform_port
           Sample.reference_ref (Sample.defaults Sample.device)
           (ports := four_ports)); [reflexivity | discriminate].
Defined.

(** C9, counterexample: with [n_ports = -1] and one port,
    [N // n_ports = -1] and the identity sequence is empty; passed
    explicitly it fails the length assertion, while the default goes on and
    returns. *)
Lemma identity_pad_indices_counterexample :
  outcome
    (Sample.run
       (Sample.call (Sample.device1 0) None None (-1)
          (Some (range (len (one_port 0) / -1))) 0))
  = inl AssertionError /\
  succeeds
    (Sample.run (Sample.call (Sample.device1 0) None None (-1) None 0))
  = true.
Proof. split; vm_compute; reflexivity. Qed.

Lemma pad_indices_length_contract_witness :
  Sample.run (Sample.call Sample.device None None 1 (Some [0; 1]%Z) 0)
  = ([], inl AssertionError).
Proof.
  apply (pad_indices_length_contract
           Sample.direction_ports_from_list_ports Sample.transform_port
           Sample.reference_ref
           (Sample.call Sample.device None None 1 (Some [0; 1]%Z) 0)
           (ports := four_ports) (l := [0; 1]%Z));
    [reflexivity | discriminate | discriminate | discriminate | reflexivity
    | discriminate].
Defined.

(** C7, counterexample: on an empty selection the length of [pad_indices]
    is never checked; the call returns the empty result. *)
Lemma pad_indices_length_counterexample :
  len [0%Z] <> (len (values (Component.ports Sample.device0)) / 1)%Z /\
  Sample.run (Sample.call Sample.device0 None None 1 (Some [0%Z]) 0)
  = ([], inr ([], [], of_int 0)).
Proof. split; [discriminate | reflexivity]. Qed.

Lemma not_found_lookup_aborts_witness :
  (exists k,
     Sample.run
       (Args.mk Sample.device (of_int 150) (Instance Sample.pad) (of_int 20)
          None (of_int 4) (dec 1 10) None 1 None None Sample.get_route "W"
          (-90) (of_int 0) (Some ["n"; "zz"]%string) (fun d => d))
     = ([], inl (KeyError k))) /\
  (exists tr e,
     Sample.run
       (Sample.call Sample.device None (Some ["zz"%string]) 1 None 0)
     = (tr, inl e) /\
     routed_ports tr = []).
Proof.
  split.
  - apply (proj1 (not_found_lookup_aborts
             Sample.direction_ports_from_list_ports Sample.transform_port
             Sample.reference_ref
             (Args.mk Sample.device (of_int 150) (Instance Sample.pad)
                (of_int 20) None (of_int 4) (dec 1 10) None 1 None None
                Sample.get_route "W" (-90) (of_int 0)
                (Some ["n"; "zz"]%string) (fun d => d)))
           ["n"; "zz"]%string "zz"%string);
      [reflexivity | right; left; reflexivity | reflexivity].
  - apply (proj2 (not_found_lookup_aborts
             Sample.direction_ports_from_list_ports Sample.transform_port
             Sample.reference_ref
             (Sample.call Sample.device None (Some ["zz"%string]) 1 None 0))
           four_ports ["zz"%string] "zz"%string);
      [reflexivity | discriminate | reflexivity | left; reflexivity
      | reflexivity].
Defined.

(** C4, counterexample: the id ["zz"] is not a port of the device; the call
    fails with the key error after it has placed the four pads of the
    row. *)
Lemma missing_connection_id_counterexample :
  outcome
    (Sample.run
       (Sample.call Sample.device None (Some ["zz"%string]) 1 None 0))
  = inl (KeyError "zz") /\
  length
    (filter is_pad
       (trace
          (Sample.run
             (Sample.call Sample.device None (Some ["zz"%string]) 1 None
                0))))
  = 4%nat.
Proof. split; vm_compute; reflexivity. Qed.

(** C2. The call does not keep the baseline at or below the ceiling.  One
    port, [y_min = 10], the defaults [fanout_length = 20] and
    [separation = 4.0], a pad port at [x = 0] and [max_y0_optical = -14.125]
    (all exact in binary64): the value rounded to one decimal place is
    [-14.0] and its minimum with the ceiling is [-14.125], but line 111
    rounds that minimum again and the call returns [-14.1], which is not
    the minimum and lies above the ceiling. *)
Theorem baseline_y_overshoots_ceiling :
  exists els rows y0,
    outcome
      (Sample.run
         (Sample.call (Sample.device1 0) (Some (dec (-113) 8)) None 1 None 0))
    = inr (els, rows, y0) /\
    y0 <> clamped_baseline_y (of_int 10) (of_int 20) (of_int 0) 2 (of_int 4)
            (Some (dec (-113) 8)) /\
    frac y0 = ((-141)%Z, 10%positive) /\
    Qc_ltb (dec (-113) 8) y0 = true.
Proof.
  destruct (returns
              (Sample.run
                 (Sample.call (Sample.device1 0) (Some (dec (-113) 8)) None 1
                    None 0)))
    as (tr & [[els rows] y0] & H); [vm_compute; reflexivity |].
  exists els, rows, y0. rewrite H. split; [reflexivity |].
  assert (Ey : frac y0 = ((-141)%Z, 10%positive)).
  { assert (E : Some (frac y0) = Some ((-141)%Z, 10%positive)).
    { transitivity
        (match outcome
                 (Sample.run
                    (Sample.call (Sample.device1 0) (Some (dec (-113) 8))
                       None 1 None 0)) with
         | inr (_, _, y) => Some (frac y)
         | inl _ => None
         end); [rewrite H; reflexivity | vm_compute; reflexivity]. }
    congruence. }
  split; [| split; [exact Ey |]].
  - intros E. rewrite E in Ey. vm_compute in Ey. discriminate Ey.
  - unfold Qc_ltb. unfold frac in Ey.
    destruct y0 as [[n d] Hc]. simpl in Ey. injection Ey as -> ->.
    reflexivity.
Qed.



End Examples.

(* ================================================================== *)
(** ** Whole calls *)

Section Calls.
Context {num : Type} {NumOps : Number num}.
Variable direction_ports_from_list_ports :
  list (Port.t num) -> DirectionPorts num.
Variable transform_port : ComponentReference.t num -> Port.t num -> Port.t num.
Variable reference_ref :
  ComponentReference.t num -> num * num -> Z -> string ->
  Exn + ComponentReference.t num.

Local Abbreviation run :=
  (route_pad_array direction_ports_from_list_ports transform_port
     reference_ref).

Lemma bind_run {A B : Type} (t1 : list (Event num)) (a : A)
  (f : A -> M num B) t2 r :
  f a = (t2, r) -> bind (t1, inr a) f = (t1 ++ t2, r).
Proof. intros H. simpl. now rewrite H. Qed.

Lemma bind_assoc {A B C : Type} (m : M num A) (f : A -> M num B)
  (g : B -> M num C) :
  bind (bind m f) g = bind m (fun a => bind (f a) g).
Proof.
  destruct m as [t [e | a]]; simpl; [reflexivity |].
  destruct (f a) as [t1 [e | b]]; simpl; [reflexivity |].
  destruct (g b) as [t2 r]. now rewrite app_assoc.
Qed.

Lemma foldM_app {A S : Type} (body : S -> A -> M num S) xs ys : forall s,
  foldM body (xs ++ ys) s = bind (foldM body xs s) (foldM body ys).
Proof.
  induction xs as [| a xs IH]; intros s; cbn [app foldM].
  - now rewrite bind_ret.
  - rewrite bind_assoc. apply bind_ext. intros s'. apply IH.
Qed.

Lemma lookup_transformed r (d : PortDict num) k p :
  lookup d k = Some p ->
  lookup (map (fun kp => (fst kp, transform_port r (snd kp))) d) k
  = Some (transform_port r p).
Proof.
  induction d as [| [k' q] d IH]; simpl; [discriminate |].
  destruct (String.eqb k' k); [| exact IH].
  intros H. now inversion H.
Qed.

Lemma firstn_skipn_S {A : Type} (l : list A) s n x :
  nth_error l s = Some x ->
  firstn (S n) (skipn s l) = x :: firstn n (skipn (S s) l).
Proof.
  revert l. induction s as [| s IH]; intros [| y l] H; simpl in *;
    try discriminate.
  - now inversion H.
  - now apply IH.
Qed.

Lemma nth_error_in_range {A : Type} (l : list A) s :
  (s < length l)%nat -> exists x, nth_error l s = Some x.
Proof.
  intros Hs. destruct (nth_error l s) as [x |] eqn:E; [now exists x |].
  apply nth_error_None in E. lia.
Qed.

Lemma mapM_place_all (c : Component.t num) (pos : Z -> num * num) rot name :
  forall idx n, length idx = n ->
    mapM (fun ip => PadObj_ref reference_ref (snd ip) (pos (fst ip)) rot name)
      (combine idx (repeat (Proto c) n))
    = (map (fun i => PadPlaced (ComponentReference.mk c (pos i) rot name)) idx,
       inr (map (fun i => Placed (ComponentReference.mk c (pos i) rot name))
              idx)).
Proof.
  induction idx as [| i idx IH]; intros n Hn; subst n; simpl.
  - reflexivity.
  - rewrite (IH _ eq_refl). simpl. now rewrite app_nil_r.
Qed.

Lemma place_one_row (c : Component.t num) idx x_c offset io_sep y0 y_sep
  rot name n :
  length idx = n ->
  place_rows reference_ref 1 idx x_c offset io_sep y0 y_sep rot name
    (repeat (Proto c) n)
  = (map (fun i => PadPlaced (ComponentReference.mk c
            (x_c -: offset +: of_int i *: io_sep, y0 -: of_int 0 *: y_sep)
            rot name)) idx,
     inr (map (fun i => Placed (ComponentReference.mk c
            (x_c -: offset +: of_int i *: io_sep, y0 -: of_int 0 *: y_sep)
            rot name)) idx)).
Proof.
  intros Hn. unfold place_rows. change (range 1) with [0%Z].
  cbn [foldM]. rewrite bind_ret_r.
  exact (@mapM_place_all c
           (fun i => (x_c -: offset +: of_int i *: io_sep,
                      y0 -: of_int 0 *: y_sep))
           rot name idx n Hn).
Qed.

Section PairingRuns.
Variable get_route_function : Port.t num -> Port.t num -> Route num.
Variable port_name : string.
Variable ordered_ports : list (Port.t num).
Variable pad_port : Port.t num.
Variable refs : list (ComponentReference.t num).
Hypothesis refs_port : forall r, In r refs ->
  lookup (Component.ports (ComponentReference.parent r)) port_name
  = Some pad_port.

Local Abbreviation pair_one :=
  (pair_port transform_port get_route_function port_name ordered_ports
     (map Placed refs)).
Local Abbreviation pairs s n :=
  (combine (firstn n (skipn s ordered_ports))
     (map (fun r => transform_port r pad_port) (firstn n (skipn s refs)))).

Lemma pair_port_run elements s r p1 :
  nth_error refs s = Some r -> nth_error ordered_ports s = Some p1 ->
  pair_one elements (Z.of_nat s)
  = ([RouteBuilt p1 (transform_port r pad_port)],
     inr (elements
          ++ references (get_route_function p1 (transform_port r pad_port)))).
Proof.
  intros Hr Hp. unfold pair_port, index. rewrite Nat2Z.id.
  rewrite nth_error_map, Hr. cbn [option_map]. rewrite bind_ret.
  unfold getitem. cbn [PadObj_ports].
  rewrite (lookup_transformed r _ _
             (refs_port r (nth_error_In _ _ Hr))).
  rewrite bind_ret, Hp, bind_ret. reflexivity.
Qed.

Lemma pair_port_short elements s r :
  nth_error refs s = Some r -> nth_error ordered_ports s = None ->
  pair_one elements (Z.of_nat s) = ([], inl IndexError).
Proof.
  intros Hr Hp. unfold pair_port, index. rewrite Nat2Z.id.
  rewrite nth_error_map, Hr. cbn [option_map]. rewrite bind_ret.
  unfold getitem. cbn [PadObj_ports].
  rewrite (lookup_transformed r _ _
             (refs_port r (nth_error_In _ _ Hr))).
  rewrite bind_ret, Hp. reflexivity.
Qed.

Lemma pair_row_run n : forall s elements,
  (s + n <= length refs)%nat -> (s + n <= length ordered_ports)%nat ->
  foldM pair_one (map Z.of_nat (seq s n)) elements
  = (map (fun pp => RouteBuilt (fst pp) (snd pp)) (pairs s n),
     inr (elements
          ++ flat_map
               (fun pp => references (get_route_function (fst pp) (snd pp)))
               (pairs s n))).
Proof.
  induction n as [| n IH]; intros s elements Hr Ho.
  - simpl. now rewrite app_nil_r.
  - destruct (@nth_error_in_range _ refs s) as [r Er]; [lia |].
    destruct (@nth_error_in_range _ ordered_ports s) as [p1 Ep]; [lia |].
    cbn [seq map foldM]. rewrite (@pair_port_run elements s r p1 Er Ep).
    rewrite (@firstn_skipn_S _ refs s n r Er),
      (@firstn_skipn_S _ ordered_ports s n p1 Ep).
    erewrite bind_run; [| apply IH; lia].
    cbn [map combine flat_map fst snd app]. now rewrite <- app_assoc.
Qed.

End PairingRuns.

(** A call with one row, up to the pairing loop. *)
Lemma single_row_run (a : Args.t num) ports pad_port idx ordered :
  outcome (selected_ports a) = inr ports -> ports <> [] ->
  Args.n_ports a = 1 ->
  lookup (Component.ports (resolve_pad (Args.pad a))) (Args.port_name a)
  = Some pad_port ->
  resolve_pad_indices (num := num) (Args.pad_indices a) (len ports)
  = ret idx ->
  final_ordered_ports (Args.component a) (Args.connected_port_list_ids a)
    (compose_ordered_ports (direction_ports_from_list_ports ports))
  = ret ordered ->
  run a
  = bind (map PadPlaced (single_row_refs a ports pad_port idx), inr tt)
      (fun _ =>
         elements <-
           foldM
             (pair_port transform_port (Args.get_route_function a)
                (Args.port_name a) ordered
                (map Placed (single_row_refs a ports pad_port idx)))
             (range (len ports)) [] ;;
         ret (elements, [map Placed (single_row_refs a ports pad_port idx)],
              baseline_y (Component.ymin (Args.component a))
                (Args.fanout_length a) (Port.x pad_port)
                (padding_factor (len ports)) (Args.straight_separation a)
                (Args.max_y0_optical a))).
Proof.
  intros Hsel Hne Hn Hport Hidx Hord.
  assert (Hlidx : length idx = length ports).
  { destruct (resolve_pad_indices_value _ _ Hidx) as [_ Hl].
    specialize (Hl (len_nonneg ports)). unfold len in Hl. lia. }
  unfold route_pad_array.
  rewrite (selected_ports_value _ Hsel), bind_ret, (nonempty_len Hne).
  unfold getitem at 1. rewrite Hport, bind_ret.
  unfold floordiv. rewrite Hn. change (1 =? 0) with false. cbv iota.
  rewrite bind_ret, Z.div_1_r, Hidx, bind_ret.
  rewrite place_one_row by (now rewrite to_nat_len).
  unfold single_row_refs. rewrite !map_map.
  cbn [bind]. rewrite Hord, bind_ret.
  unfold pair_rows. cbn [app foldM]. rewrite bind_ret_r.
  reflexivity.
Qed.

Lemma single_row_refs_port (a : Args.t num) ports pad_port idx :
  lookup (Component.ports (resolve_pad (Args.pad a))) (Args.port_name a)
  = Some pad_port ->
  forall r, In r (single_row_refs a ports pad_port idx) ->
    lookup (Component.ports (ComponentReference.parent r)) (Args.port_name a)
    = Some pad_port.
Proof.
  intros Hport r Hr. unfold single_row_refs in Hr.
  apply in_map_iff in Hr as (i & <- & _). exact Hport.
Qed.

(** X1. With one row, the pad's port present, pad slots of the right number
    (or the default ones) and a port sequence at least as long as the
    selection, the call returns.  It places one pad per slot at
    [x_c - offset + slot * spacing] on the baseline, then routes the first
    N ports of the sequence to the pads in order; the elements returned are
    the references of these routes, concatenated in that order, and the
    single row returned holds the placed pads. *)
Theorem single_row_call_result (a : Args.t num) ports pad_port idx ordered :
  outcome (selected_ports a) = inr ports -> ports <> [] ->
  Args.n_ports a = 1 ->
  lookup (Component.ports (resolve_pad (Args.pad a))) (Args.port_name a)
  = Some pad_port ->
  resolve_pad_indices (num := num) (Args.pad_indices a) (len ports)
  = ret idx ->
  final_ordered_ports (Args.component a) (Args.connected_port_list_ids a)
    (compose_ordered_ports (direction_ports_from_list_ports ports))
  = ret ordered ->
  (length ports <= length ordered)%nat ->
  let refs := single_row_refs a ports pad_port idx in
  let pairs :=
    combine (firstn (length ports) ordered)
      (map (fun r => transform_port r pad_port) refs) in
  run a
  = (map PadPlaced refs ++ map (fun pp => RouteBuilt (fst pp) (snd pp)) pairs,
     inr (flat_map
            (fun pp =>
               references (Args.get_route_function a (fst pp) (snd pp)))
            pairs,
          [map Placed refs],
          baseline_y (Component.ymin (Args.component a))
            (Args.fanout_length a) (Port.x pad_port)
            (padding_factor (len ports)) (Args.straight_separation a)
            (Args.max_y0_optical a))).
Proof.
  intros Hsel Hne Hn Hport Hidx Hord Hlen refs pairs.
  assert (Hlrefs : length refs = length ports).
  { unfold refs, single_row_refs. rewrite length_map.
    destruct (resolve_pad_indices_value _ _ Hidx) as [_ Hl].
    specialize (Hl (len_nonneg ports)). unfold len in Hl. lia. }
  rewrite (single_row_run _ Hsel Hne Hn Hport Hidx Hord). fold refs.
  apply bind_run. unfold range. rewrite to_nat_len.
  rewrite (pair_row_run (Args.get_route_function a) (Args.port_name a)
             ordered refs (single_row_refs_port a ports idx Hport)
             (length ports) 0 []) by lia.
  cbn [skipn]. rewrite (firstn_all2 refs) by lia.
  fold pairs. erewrite bind_run; [| reflexivity].
  now rewrite app_nil_r.
Qed.

(** X2. With one row and the pads placed, a port sequence shorter than the
    selection (a short override, or buckets that lost ports) makes the call
    fail with an index error, after it has built a route for every port of
    the sequence. *)
Theorem short_sequence_fails (a : Args.t num) ports pad_port idx ordered :
  outcome (selected_ports a) = inr ports -> ports <> [] ->
  Args.n_ports a = 1 ->
  lookup (Component.ports (resolve_pad (Args.pad a))) (Args.port_name a)
  = Some pad_port ->
  resolve_pad_indices (num := num) (Args.pad_indices a) (len ports)
  = ret idx ->
  final_ordered_ports (Args.component a) (Args.connected_port_list_ids a)
    (compose_ordered_ports (direction_ports_from_list_ports ports))
  = ret ordered ->
  (length ordered < length ports)%nat ->
  let refs := single_row_refs a ports pad_port idx in
  run a
  = (map PadPlaced refs
     ++ map (fun pp => RouteBuilt (fst pp) (snd pp))
          (combine ordered (map (fun r => transform_port r pad_port) refs)),
     inl IndexError).
Proof.
  intros Hsel Hne Hn Hport Hidx Hord Hlen refs.
  assert (Hlrefs : length refs = length ports).
  { unfold refs, single_row_refs. rewrite length_map.
    destruct (resolve_pad_indices_value _ _ Hidx) as [_ Hl].
    specialize (Hl (len_nonneg ports)). unfold len in Hl. lia. }
  rewrite (single_row_run _ Hsel Hne Hn Hport Hidx Hord). fold refs.
  apply bind_run. unfold range. rewrite to_nat_len.
  replace (length ports)
    with (length ordered + S (length ports - length ordered - 1))%nat by lia.
  rewrite seq_app, map_app, foldM_app.
  rewrite (pair_row_run (Args.get_route_function a) (Args.port_name a)
             ordered refs (single_row_refs_port a ports idx Hport)
             (length ordered) 0 []) by lia.
  cbn [skipn]. rewrite firstn_all.
  rewrite <- firstn_map, <- combine_firstn_l.
  destruct (@nth_error_in_range _ refs (length ordered)) as [r Er]; [lia |].
  cbn [seq map foldM plus].
  rewrite bind_assoc. erewrite bind_run.
  2:{ rewrite (pair_port_short (Args.get_route_function a) (Args.port_name a)
                 ordered refs (single_row_refs_port a ports idx Hport) _
                 (length ordered) Er); [reflexivity |].
      apply nth_error_None. lia. }
  now rewrite app_nil_r.
Qed.

(** X3. On a non-empty selection, a pad without the port [port_name] makes
    the call fail with the key error of that name before anything is
    placed or routed, whatever the other arguments. *)
Theorem missing_pad_port_fails (a : Args.t num) ports :
  outcome (selected_ports a) = inr ports -> ports <> [] ->
  lookup (Component.ports (resolve_pad (Args.pad a))) (Args.port_name a)
  = None ->
  run a = ([], inl (KeyError (Args.port_name a))).
Proof.
  intros Hsel Hne Hport. unfold route_pad_array.
  rewrite (selected_ports_value _ Hsel), bind_ret, (nonempty_len Hne).
  unfold getitem at 1. now rewrite Hport.
Qed.

(** X4. On a non-empty selection with the pad's port present, zero rows make
    the call fail with a division by zero before anything is placed,
    whatever [pad_indices] and the connection ids are. *)
Theorem zero_rows_fails (a : Args.t num) ports :
  outcome (selected_ports a) = inr ports -> ports <> [] ->
  lookup (Component.ports (resolve_pad (Args.pad a))) (Args.port_name a)
  <> None ->
  Args.n_ports a = 0 ->
  run a = ([], inl ZeroDivisionError).
Proof.
  intros Hsel Hne Hport Hn. unfold route_pad_array.
  rewrite (selected_ports_value _ Hsel), bind_ret, (nonempty_len Hne).
  unfold getitem at 1.
  destruct (lookup _ (Args.port_name a)) as [pad_port |]; [| contradiction].
  rewrite bind_ret. unfold floordiv. now rewrite Hn.
Qed.

Lemma pair_row_in_row get_route_function port_name ordered_ports pads xs :
  forall elements tr elements',
    foldM (pair_port transform_port get_route_function port_name
             ordered_ports pads) xs elements = (tr, inr elements') ->
    forall i, In i xs -> (Z.to_nat i < length pads)%nat.
Proof.
  intros elements tr elements' H i Hin.
  destruct (Nat.lt_ge_cases (Z.to_nat i) (length pads)) as [Hlt | Hge];
    [exact Hlt |].
  destruct (pair_row_fails transform_port get_route_function port_name
              ordered_ports pads xs i Hin Hge elements) as [e He].
  rewrite H in He. discriminate He.
Qed.

Lemma place_rows_negative n_ports pad_indices x_c offset io_sep y0 y_sep
  pad_rotation port_name pads :
  n_ports < 0 ->
  place_rows reference_ref n_ports pad_indices x_c offset io_sep y0 y_sep
    pad_rotation port_name pads = ret pads.
Proof.
  intros Hn. unfold place_rows, range.
  replace (Z.to_nat n_ports) with 0%nat by lia. reflexivity.
Qed.

Lemma ret_inj {A : Type} (t : list (Event num)) (v v' : A) :
  ret v = (t, inr v') -> t = [] /\ v = v'.
Proof. unfold ret. intros H. inversion H. auto. Qed.

(** X5. A call that returns on a non-empty selection has one row or a
    negative number of rows, and returns exactly one pad row, with one
    entry per selected port. *)
Theorem returning_call_shape (a : Args.t num) ports tr els rows y0 :
  outcome (selected_ports a) = inr ports -> ports <> [] ->
  run a = (tr, inr (els, rows, y0)) ->
  (Args.n_ports a = 1 \/ Args.n_ports a < 0) /\
  exists row, rows = [row] /\ length row = length ports.
Proof.
  intros Hsel Hne H.
  destruct (run_value _ _ _ _ Hsel Hne H)
    as (pad_port & idx & t1 & pads & ordered & t2 &
        _ & Hn & Hidx & Hplace & _ & Hpair & -> & _ & _).
  assert (HN : 0 < len ports).
  { pose proof (len_nonneg ports). pose proof (nonempty_len Hne) as E.
    apply Z.eqb_neq in E. lia. }
  assert (Hge : (length ports <= length pads)%nat).
  { pose proof (pair_row_in_row _ _ _ _ _ _ Hpair
                  (Z.of_nat (length ports - 1))) as Hi.
    rewrite Nat2Z.id in Hi.
    assert (Hp : (0 < length ports)%nat) by (unfold len in HN; lia).
    enough (length ports - 1 < length pads)%nat by lia.
    apply Hi. apply in_range. unfold len. lia. }
  destruct (Z.lt_ge_cases (Args.n_ports a) 0) as [Hneg | Hpos].
  - split; [now right |]. exists pads. split; [reflexivity |].
    rewrite place_rows_negative in Hplace by assumption.
    apply ret_inj in Hplace as [_ <-].
    now rewrite repeat_length, to_nat_len.
  - assert (Hp : 0 < Args.n_ports a) by lia.
    apply resolve_pad_indices_value in Hidx as [_ Hl].
    specialize (Hl (Z.div_pos _ _ (len_nonneg ports) Hp)).
    apply place_rows_length in Hplace; [| exact Hp].
    assert (Hle : len ports <= len ports / Args.n_ports a).
    { rewrite <- Hl. unfold len. lia. }
    assert (H1 : Args.n_ports a = 1).
    { destruct (Z.eq_dec (Args.n_ports a) 1) as [E | E]; [exact E |].
      assert (Hlt : len ports / Args.n_ports a < len ports)
        by (apply Z.div_lt; lia).
      lia. }
    split; [now left |]. exists pads. split; [reflexivity |].
    rewrite H1, Z.div_1_r in Hl. unfold len in Hl. lia.
Qed.

Lemma pair_port_no_pads get_route_function port_name ordered_ports pads
  elements i :
  filter is_pad
    (trace (pair_port transform_port get_route_function port_name
              ordered_ports pads elements i)) = [].
Proof.
  unfold pair_port, index, getitem.
  destruct (nth_error pads (Z.to_nat i)) as [pad_i |]; [| reflexivity].
  rewrite bind_ret.
  destruct (lookup (PadObj_ports transform_port pad_i) port_name) as [p0 |];
    [| reflexivity].
  rewrite bind_ret.
  destruct (nth_error ordered_ports (Z.to_nat i)) as [p1 |]; [| reflexivity].
  rewrite bind_ret. reflexivity.
Qed.

Lemma foldM_no_pads {A S : Type} (body : S -> A -> M num S) xs :
  (forall s a, filter is_pad (trace (body s a)) = []) ->
  forall s, filter is_pad (trace (foldM body xs s)) = [].
Proof.
  intros Hb. induction xs as [| a xs IH]; simpl; intros s; [reflexivity |].
  specialize (Hb s a). destruct (body s a) as [t1 [e | s']]; simpl in *;
    [exact Hb |].
  specialize (IH s'). destruct (foldM body xs s') as [t2 r]; simpl in *.
  now rewrite filter_app, Hb, IH.
Qed.

Lemma pair_rows_no_pads get_route_function port_name N ordered_ports
  io_pad_lines elements :
  filter is_pad
    (trace (pair_rows transform_port get_route_function port_name N
              ordered_ports io_pad_lines elements)) = [].
Proof.
  unfold pair_rows. apply foldM_no_pads. intros s pads.
  apply foldM_no_pads. intros s' i. apply pair_port_no_pads.
Qed.

Lemma trace_bind {A B : Type} (m : M num A) (f : A -> M num B) :
  trace (bind m f)
  = trace m ++ match outcome m with
               | inr a => trace (f a)
               | inl _ => []
               end.
Proof.
  destruct m as [t [e | a]]; simpl; [now rewrite app_nil_r |].
  now destruct (f a).
Qed.

(** X6. In every call, returning or failing, all pads are placed before the
    first route is built: the objects instantiated are pad placements
    followed by route constructions. *)
Theorem pads_placed_before_routes (a : Args.t num) :
  exists t1 t2,
    trace (run a) = t1 ++ t2 /\
    routed_ports t1 = [] /\ filter is_pad t2 = [].
Proof.
  unfold route_pad_array. rewrite trace_bind, selected_ports_trace.
  destruct (outcome (selected_ports a)) as [e | ports];
    [now exists [], [] |].
  destruct (len ports =? 0); [now exists [], [] |].
  rewrite trace_bind. unfold getitem at 1 2.
  destruct (lookup _ (Args.port_name a)) as [pad_port |];
    [| now exists [], []].
  cbn [trace outcome ret fst snd app].
  rewrite trace_bind. unfold floordiv.
  destruct (Args.n_ports a =? 0); [now exists [], [] |].
  cbn [trace outcome ret fst snd app].
  rewrite trace_bind, resolve_pad_indices_trace.
  destruct (outcome (resolve_pad_indices _ _)) as [e | idx];
    [now exists [], [] |].
  cbn [app]. rewrite trace_bind.
  match goal with
  | |- context [trace (place_rows ?r ?n ?ix ?xc ?o ?s ?y ?ys ?rot ?pn ?ps)] =>
      pose proof (place_rows_no_routes r n ix xc o s y ys rot pn ps) as Ht1;
      destruct (place_rows r n ix xc o s y ys rot pn ps) as [t1 [e | pads]]
  end; cbn [trace outcome fst snd] in *.
  - exists t1, []. auto.
  - rewrite trace_bind, final_ordered_ports_trace.
    destruct (outcome (final_ordered_ports _ _ _)) as [e | ordered];
      [exists t1, []; auto |].
    cbn [app]. rewrite trace_bind.
    match goal with
    | |- context [trace (pair_rows ?t ?g ?pn ?n ?o ?l ?e)] =>
        pose proof (pair_rows_no_pads g pn n o l e) as Ht2;
        destruct (pair_rows t g pn n o l e) as [t2 [e' | els]]
    end; cbn [trace outcome fst snd ret] in *.
    + exists t1, (t2 ++ []). rewrite app_nil_r. auto.
    + exists t1, (t2 ++ []). rewrite app_nil_r. auto.
Qed.

(** The ports a returning call has routed: the first N of the final
    sequence. *)
Lemma run_routed_ports (a : Args.t num) ports tr v :
  outcome (selected_ports a) = inr ports -> ports <> [] ->
  run a = (tr, inr v) ->
  exists ordered,
    final_ordered_ports (Args.component a) (Args.connected_port_list_ids a)
      (compose_ordered_ports (direction_ports_from_list_ports ports))
    = ret ordered /\
    routed_ports tr = firstn (length ports) ordered /\
    (length ports <= length ordered)%nat.
Proof.
  intros Hsel Hne H. destruct v as [[els rows] y0].
  destruct (run_value _ _ _ _ Hsel Hne H)
    as (pad_port & idx & t1 & pads & ordered & t2 &
        _ & _ & _ & Hplace & Hord & Hpair & _ & _ & ->).
  exists ordered. split; [exact Hord |].
  assert (Hlen : (length ports <= length ordered)%nat).
  { pose proof Hpair as HF. apply pair_row_routed in HF.
    unfold range in HF. pose proof (Forall2_length HF) as Hl.
    apply routed_range in HF. rewrite HF in Hl.
    rewrite length_map, length_seq, length_firstn, to_nat_len in Hl.
    cbn [skipn] in Hl. lia. }
  split; [| exact Hlen].
  match type of Hplace with
  | place_rows ?r ?n ?ix ?xc ?o ?s ?y ?ys ?rot ?pn ?ps = _ =>
      pose proof (place_rows_no_routes r n ix xc o s y ys rot pn ps) as Hno
  end.
  rewrite Hplace in Hno. cbn [trace fst] in Hno.
  rewrite routed_ports_app, Hno. cbn [app].
  apply pair_row_routed in Hpair. unfold range in Hpair.
  apply routed_range in Hpair. cbn [skipn] in Hpair.
  now rewrite Hpair, to_nat_len.
Qed.

Lemma walk_of_buckets (dp : DirectionPorts num) :
  Permutation (compose_ordered_ports dp)
    (dirN dp ++ dirW dp ++ dirS dp ++ dirE dp).
Proof. unfold compose_ordered_ports. apply walk_permutation. Qed.

Lemma no_override_final (a : Args.t num) l ordered :
  Args.connected_port_list_ids a = None \/
  Args.connected_port_list_ids a = Some [] ->
  final_ordered_ports (Args.component a) (Args.connected_port_list_ids a) l
  = ret ordered ->
  ordered = l.
Proof.
  intros [-> | ->] H; cbn [final_ordered_ports] in H;
    apply ret_inj in H as [_ H]; now symmetry.
Qed.

(** X7. When the direction primitive distributes exactly the selected ports
    over its four buckets, a call without override that returns has routed
    every selected port exactly once. *)
Theorem every_selected_port_routed_once (a : Args.t num) ports tr v :
  outcome (selected_ports a) = inr ports -> ports <> [] ->
  Args.connected_port_list_ids a = None \/
  Args.connected_port_list_ids a = Some [] ->
  Permutation
    (dirN (direction_ports_from_list_ports ports)
     ++ dirW (direction_ports_from_list_ports ports)
     ++ dirS (direction_ports_from_list_ports ports)
     ++ dirE (direction_ports_from_list_ports ports))
    ports ->
  run a = (tr, inr v) ->
  Permutation (routed_ports tr) ports.
Proof.
  intros Hsel Hne Hnone Hpart H.
  destruct (run_routed_ports _ Hsel Hne H) as (ordered & Hord & -> & _).
  apply (no_override_final _ _ Hnone) in Hord. subst ordered.
  pose proof (walk_of_buckets (direction_ports_from_list_ports ports))
    as Hwalk.
  rewrite Hpart in Hwalk.
  rewrite firstn_all2 by (rewrite (Permutation_length Hwalk); lia).
  exact Hwalk.
Qed.

Lemma in_firstn {A : Type} (n : nat) (l : list A) x :
  In x (firstn n l) -> In x l.
Proof.
  intros H. rewrite <- (firstn_skipn n l). apply in_or_app. now left.
Qed.

Lemma selected_ports_not_excluded (a : Args.t num) ports l p :
  outcome (selected_ports a) = inr ports ->
  Args.excluded_ports a = Some l ->
  In p ports -> ~ In (Port.name p) l.
Proof.
  unfold selected_ports. intros H Hl Hp Hin. rewrite Hl in H.
  destruct l as [| e l]; [contradiction |].
  match type of H with
  | outcome (bind ?m _) = _ => destruct m as [t [e' | candidates]]
  end; [discriminate H |].
  cbn [bind ret outcome snd] in H. inversion H; subst ports. clear H.
  apply filter_In in Hp as [_ Hp]. cbv beta iota in Hp.
  apply negb_true_iff in Hp.
  assert (Hex : existsb (String.eqb (Port.name p)) (e :: l) = true).
  { apply existsb_exists. exists (Port.name p). split; [exact Hin |].
    apply String.eqb_refl. }
  cbn [existsb] in Hex. congruence.
Qed.

(** X8. When the direction primitive only hands back ports it was given, a
    call without override never routes a port whose name is excluded. *)
Theorem excluded_ports_not_routed (a : Args.t num) ports excluded tr v p :
  outcome (selected_ports a) = inr ports -> ports <> [] ->
  Args.connected_port_list_ids a = None \/
  Args.connected_port_list_ids a = Some [] ->
  Args.excluded_ports a = Some excluded ->
  (forall q,
     In q (dirN (direction_ports_from_list_ports ports)
           ++ dirW (direction_ports_from_list_ports ports)
           ++ dirS (direction_ports_from_list_ports ports)
           ++ dirE (direction_ports_from_list_ports ports)) ->
     In q ports) ->
  run a = (tr, inr v) ->
  In p (routed_ports tr) -> ~ In (Port.name p) excluded.
Proof.
  intros Hsel Hne Hnone Hex Hsub H Hp.
  destruct (run_routed_ports _ Hsel Hne H) as (ordered & Hord & Hr & _).
  apply (no_override_final _ _ Hnone) in Hord. subst ordered.
  rewrite Hr in Hp. apply in_firstn in Hp.
  apply (Permutation_in _
           (walk_of_buckets (direction_ports_from_list_ports ports))) in Hp.
  apply (selected_ports_not_excluded _ _ Hsel Hex). now apply Hsub.
Qed.

Lemma mapM_getitem_value (d : PortDict num) ks : forall t ps,
  mapM (getitem d) ks = (t, inr ps) ->
  Forall2 (fun k p => lookup d k = Some p) ks ps.
Proof.
  induction ks as [| k ks IH]; intros t ps H; cbn [mapM] in H.
  - apply ret_inj in H as [_ <-]. constructor.
  - apply bind_value in H as (t1 & p & t2 & Hp & H & _).
    apply bind_value in H as (t3 & ps' & t4 & Hps & H & _).
    apply ret_inj in H as [_ <-].
    constructor; [| eapply IH; eassumption].
    unfold getitem in Hp. destruct (lookup d k) as [q |]; [| discriminate].
    apply ret_inj in Hp as [_ ->]. reflexivity.
Qed.

(** X9. With a non-empty override, a call that returns has routed, in the
    override's order, the ports its first N ids name in the device's full
    port mapping; neither the buckets nor the exclusion list take part. *)
Theorem override_decides_routed_ports (a : Args.t num) ports ids tr v :
  outcome (selected_ports a) = inr ports -> ports <> [] ->
  Args.connected_port_list_ids a = Some ids -> ids <> [] ->
  run a = (tr, inr v) ->
  exists looked_up,
    Forall2
      (fun i p => lookup (Component.ports (Args.component a)) i = Some p)
      ids looked_up /\
    routed_ports tr = firstn (length ports) looked_up /\
    (length ports <= length ids)%nat.
Proof.
  intros Hsel Hne Hids Hnonempty H.
  destruct (run_routed_ports _ Hsel Hne H) as (ordered & Hord & Hr & Hlen).
  rewrite Hids in Hord. destruct ids as [| i ids]; [contradiction |].
  cbn [final_ordered_ports] in Hord.
  apply mapM_getitem_value in Hord.
  exists ordered. split; [exact Hord |]. split; [exact Hr |].
  now rewrite (Forall2_length Hord).
Qed.

(** X10. With a negative number of rows, a call that returns on a non-empty
    selection was given no [pad_indices], has placed no pad, and returns as
    its row the unplaced pad prototype, once per selected port. *)
Theorem negative_rows_place_nothing (a : Args.t num) ports tr els rows y0 :
  outcome (selected_ports a) = inr ports -> ports <> [] ->
  Args.n_ports a < 0 ->
  run a = (tr, inr (els, rows, y0)) ->
  Args.pad_indices a = None /\
  rows = [repeat (Proto (resolve_pad (Args.pad a))) (length ports)] /\
  filter is_pad tr = [].
Proof.
  intros Hsel Hne Hn H.
  destruct (run_value _ _ _ _ Hsel Hne H)
    as (pad_port & idx & t1 & pads & ordered & t2 &
        _ & _ & Hidx & Hplace & _ & Hpair & -> & _ & ->).
  assert (HN : 0 < len ports).
  { pose proof (len_nonneg ports). pose proof (nonempty_len Hne) as E.
    apply Z.eqb_neq in E. lia. }
  assert (Hnb : len ports / Args.n_ports a < 0).
  { pose proof (Z.div_mod (len ports) (Args.n_ports a)) as Hd.
    pose proof (Z.mod_neg_bound (len ports) (Args.n_ports a) Hn) as Hm.
    nia. }
  rewrite place_rows_negative in Hplace by assumption.
  apply ret_inj in Hplace as [-> <-].
  split; [| split].
  - destruct (Args.pad_indices a) as [l |]; [| reflexivity].
    unfold resolve_pad_indices, assert in Hidx.
    destruct (len l =? len ports / Args.n_ports a) eqn:E;
      [| discriminate Hidx].
    apply Z.eqb_eq in E. pose proof (len_nonneg l). lia.
  - now rewrite to_nat_len.
  - cbn [app].
    match type of Hpair with
    | foldM (pair_port ?t ?g ?pn ?o ?ps) ?xs ?e = _ =>
        pose proof (foldM_no_pads (pair_port t g pn o ps) xs
                      (fun s i => pair_port_no_pads g pn o ps s i) e) as Hno
    end.
    rewrite Hpair in Hno. exact Hno.
Qed.

(** What a returning call with one row hands back. *)
Lemma single_row_returned (a : Args.t num) ports tr els rows y0 :
  outcome (selected_ports a) = inr ports -> ports <> [] ->
  Args.n_ports a = 1 ->
  run a = (tr, inr (els, rows, y0)) ->
  exists pad_port idx,
    lookup (Component.ports (resolve_pad (Args.pad a))) (Args.port_name a)
    = Some pad_port /\
    resolve_pad_indices (num := num) (Args.pad_indices a) (len ports)
    = ret idx /\
    rows = [map Placed (single_row_refs a ports pad_port idx)] /\
    y0 = baseline_y (Component.ymin (Args.component a))
           (Args.fanout_length a) (Port.x pad_port)
           (padding_factor (len ports)) (Args.straight_separation a)
           (Args.max_y0_optical a).
Proof.
  intros Hsel Hne Hn H.
  destruct (run_value _ _ _ _ Hsel Hne H)
    as (pad_port & idx & t1 & pads & ordered & t2 &
        Hport & _ & Hidx & _ & Hord & _ & _ & Hy & _).
  rewrite Hn, Z.div_1_r in Hidx.
  exists pad_port, idx. split; [exact Hport |]. split; [exact Hidx |].
  rewrite (single_row_run _ Hsel Hne Hn Hport Hidx Hord) in H.
  cbn [bind] in H.
  match type of H with
  | (let (_, _) := bind ?m _ in _) = _ => destruct m as [t3 [e | els']]
  end; cbn [bind ret] in H; [discriminate H |].
  inversion H; subst. auto.
Qed.

(** C8. The padding factor K of the call is even: it is [len(ports) + 1]
    for an odd number of ports and [len(ports)] for an even one.  It is the
    K of the call's vertical computations: a call that returns hands back
    the baseline computed with this K and, with one row, pads placed with
    the row pitch computed with this K.  It leaves the number of ports
    paired alone: a call that returns has routed [len(ports)] ports. *)
Theorem padding_factor_even (a : Args.t num) ports :
  outcome (selected_ports a) = inr ports -> ports <> [] ->
  let K := padding_factor (len ports) in
  Z.even K = true /\
  (Z.odd (len ports) = true -> K = len ports + 1) /\
  (Z.even (len ports) = true -> K = len ports) /\
  forall tr els rows y0,
    run a = (tr, inr (els, rows, y0)) ->
    length (routed_ports tr) = length ports /\
    exists pad_port,
      lookup (Component.ports (resolve_pad (Args.pad a))) (Args.port_name a)
      = Some pad_port /\
      y0 = baseline_y (Component.ymin (Args.component a))
             (Args.fanout_length a) (Port.x pad_port) K
             (Args.straight_separation a) (Args.max_y0_optical a) /\
      (Args.n_ports a = 1 ->
       exists pad_indices,
         rows
         = [map (fun i =>
                   Placed
                     (ComponentReference.mk (resolve_pad (Args.pad a))
                        (x_center ports
                         -: slot_offset (len ports) (Args.pad_spacing a)
                              (Args.x_pad_offset a)
                         +: of_int i *: Args.pad_spacing a,
                         y0
                         -: of_int 0
                            *: row_pitch
                                 (Component.height (resolve_pad (Args.pad a)))
                                 K 1 (Args.straight_separation a)
                                 (Args.bend_radius a))
                        (Args.pad_rotation a) (Args.port_name a)))
              pad_indices]).
Proof.
  intros Hsel Hne K.
  destruct (padding_factor_parity (len ports)) as (He & Ho & Hev).
  repeat split; try assumption.
  - destruct (run_routed_ports _ Hsel Hne H) as (ordered & _ & -> & Hlen).
    rewrite length_firstn. lia.
  - destruct (run_value _ _ _ _ Hsel Hne H)
      as (pad_port & idx & t1 & pads & ordered & t2 &
          Hport & _ & _ & _ & _ & _ & _ & Hy & _).
    exists pad_port. split; [exact Hport |]. split; [exact Hy |].
    intros Hn.
    destruct (single_row_returned a Hsel Hne Hn H)
      as (pad_port' & idx' & Hport' & _ & Hrows & _).
    assert (pad_port' = pad_port) by congruence. subst pad_port'.
    exists idx'. rewrite Hrows. unfold single_row_refs.
    rewrite map_map, <- Hy. reflexivity.
Qed.

Lemma mapM_getitem_found (d : PortDict num) ks ps :
  Forall2 (fun k p => lookup d k = Some p) ks ps ->
  mapM (getitem d) ks = ret ps.
Proof.
  induction 1 as [| k p ks ps Hk _ IH]; [reflexivity |].
  cbn [mapM]. unfold getitem at 1. rewrite Hk, bind_ret, IH, bind_ret.
  reflexivity.
Qed.

(** X11. With explicit port labels that all name ports of the device, the
    ports selected are the labelled ports in the caller's order (a label
    given twice is selected twice), less those whose name is excluded;
    [select_ports] plays no part. *)
Theorem labels_select_in_caller_order (a : Args.t num) lbls found :
  Args.port_labels a = Some lbls ->
  Forall2
    (fun l p => lookup (Component.ports (Args.component a)) l = Some p)
    lbls found ->
  selected_ports a
  = ret (filter
           (fun p =>
              negb (existsb (String.eqb (Port.name p))
                      match Args.excluded_ports a with
                      | Some l => l
                      | None => []
                      end))
           found).
Proof.
  intros Hl Hfound. unfold selected_ports.
  rewrite Hl, (mapM_getitem_found _ Hfound), bind_ret.
  now destruct (Args.excluded_ports a) as [[| e l] |].
Qed.

(** X12. The plain call returns: with one row, the default pad slots, no
    override, the pad's port present and a direction primitive that
    distributes exactly the selected ports over its buckets, the call
    returns one row with one pad per selected port and has routed every
    selected port exactly once. *)
Theorem plain_call_returns (a : Args.t num) ports :
  outcome (selected_ports a) = inr ports -> ports <> [] ->
  Args.n_ports a = 1 -> Args.pad_indices a = None ->
  Args.connected_port_list_ids a = None \/
  Args.connected_port_list_ids a = Some [] ->
  lookup (Component.ports (resolve_pad (Args.pad a))) (Args.port_name a)
  <> None ->
  Permutation
    (dirN (direction_ports_from_list_ports ports)
     ++ dirW (direction_ports_from_list_ports ports)
     ++ dirS (direction_ports_from_list_ports ports)
     ++ dirE (direction_ports_from_list_ports ports))
    ports ->
  exists tr els row y0,
    run a = (tr, inr (els, [row], y0)) /\
    length row = length ports /\
    Permutation (routed_ports tr) ports.
Proof.
  intros Hsel Hne Hn Hdef Hnone Hport Hpart.
  destruct (lookup _ (Args.port_name a)) as [pad_port |] eqn:Ep;
    [clear Hport | contradiction].
  pose proof (walk_of_buckets (direction_ports_from_list_ports ports))
    as Hwalk.
  rewrite Hpart in Hwalk.
  set (ordered := compose_ordered_ports
                    (direction_ports_from_list_ports ports)) in *.
  assert (Hord : final_ordered_ports (Args.component a)
                   (Args.connected_port_list_ids a) ordered = ret ordered).
  { destruct Hnone as [-> | ->]; reflexivity. }
  assert (Hidx : resolve_pad_indices (num := num) (Args.pad_indices a)
                   (len ports) = ret (range (len ports))).
  { now rewrite Hdef. }
  set (refs := single_row_refs a ports pad_port (range (len ports))).
  assert (Hlrefs : length refs = length ports).
  { unfold refs, single_row_refs, range.
    now rewrite !length_map, length_seq, to_nat_len. }
  assert (Hrun : exists tr els y0,
            run a = (tr, inr (els, [map Placed refs], y0))).
  { rewrite (single_row_run _ Hsel Hne Hn Ep Hidx Hord). fold refs.
    unfold range at 1. rewrite to_nat_len.
    rewrite (pair_row_run (Args.get_route_function a) (Args.port_name a)
               ordered refs
               (single_row_refs_port a ports (range (len ports)) Ep)
               (length ports) 0 [])
      by (rewrite ?(Permutation_length Hwalk); lia).
    cbn [bind ret app]. do 3 eexists. reflexivity. }
  destruct Hrun as (tr & els & y0 & Hrun).
  exists tr, els, (map Placed refs), y0.
  split; [exact Hrun |]. split; [now rewrite length_map |].
  destruct (run_routed_ports _ Hsel Hne Hrun) as (ordered' & Hord' & -> & _).
  fold ordered in Hord'. rewrite Hord in Hord'.
  apply ret_inj in Hord' as [_ <-].
  rewrite firstn_all2 by (rewrite (Permutation_length Hwalk); lia).
  exact Hwalk.
Qed.

End Calls.

(* ================================================================== *)
(** ** Whole calls, in exact arithmetic *)

Section ExactCalls.
Open Scope Qc_scope.
Variable direction_ports_from_list_ports :
  list (Port.t Qc) -> DirectionPorts Qc.
Variable transform_port : ComponentReference.t Qc -> Port.t Qc -> Port.t Qc.
Variable reference_ref :
  ComponentReference.t Qc -> Qc * Qc -> Z -> string ->
  Exn + ComponentReference.t Qc.

Local Abbreviation run :=
  (route_pad_array direction_ports_from_list_ports transform_port
     reference_ref).

(** X13. Every pad of the row a one-row call returns is a placed reference
    of the pad prototype sitting at the returned baseline y, turned by
    [pad_rotation] and anchored at [port_name]. *)
Theorem single_row_pads_on_baseline (a : Args.t Qc) ports tr els rows y0 :
  outcome (selected_ports a) = inr ports -> ports <> [] ->
  Args.n_ports a = 1%Z ->
  run a = (tr, inr (els, rows, y0)) ->
  exists row,
    rows = [row] /\
    Forall
      (fun o =>
         exists r,
           o = Placed r /\
           snd (ComponentReference.position r) = y0 /\
           ComponentReference.parent r = resolve_pad (Args.pad a) /\
           ComponentReference.rotation r = Args.pad_rotation a /\
           ComponentReference.port_id r = Args.port_name a)
      row.
Proof.
  intros Hsel Hne Hn H.
  destruct (single_row_returned _ _ _ _ Hsel Hne Hn H)
    as (pad_port & idx & _ & _ & -> & Hy).
  eexists. split; [reflexivity |].
  apply Forall_forall. intros o Ho.
  apply in_map_iff in Ho as (r & <- & Hr).
  exists r. split; [reflexivity |].
  unfold single_row_refs in Hr. apply in_map_iff in Hr as (i & <- & _).
  cbn [ComponentReference.position ComponentReference.parent
       ComponentReference.rotation ComponentReference.port_id snd].
  repeat split. rewrite <- Hy. cbn [sub mul QcNumber].
  rewrite of_int_0. ring.
Qed.



Lemma round_half_even_integer (q : Q) (z : Z) :
  (q == inject_Z z)%Q -> round_half_even q = z.
Proof.
  unfold Qeq, round_half_even. destruct q as [n d]. simpl.
  intros E. rewrite Z.mul_1_r in E. subst n.
  rewrite Z.div_mul, Z.mod_mul by discriminate.
  reflexivity.
Qed.

Lemma round1_idempotent (x : Qc) : round1 (round1 x) = round1 x.
Proof.
  cbn [round1 QcNumber]. unfold Qc_round1 at 1.
  set (z := round_half_even (this x * inject_Z 10)).
  assert (E : round_half_even (this (Qc_round1 x) * inject_Z 10) = z).
  { apply round_half_even_integer. unfold Qc_round1. fold z.
    cbn [this Q2Qc]. rewrite Qred_correct. field. }
  rewrite E. reflexivity.
Qed.


Lemma round_half_even_near (q : Q) :
  (2 * round_half_even q * Zpos (Qden q) - Zpos (Qden q) <= 2 * Qnum q
   <= 2 * round_half_even q * Zpos (Qden q) + Zpos (Qden q))%Z.
Proof.
  unfold round_half_even. destruct q as [n d]. cbn [Qnum Qden].
  pose proof (Z.div_mod n (Zpos d) ltac:(discriminate)) as Hd.
  pose proof (Z.mod_pos_bound n (Zpos d) ltac:(reflexivity)) as Hm.
  pose proof (Pos2Z.is_pos d) as Hpos.
  remember (Zpos d) as D eqn:ED. remember (n / D)%Z as fl eqn:Efl.
  remember (n mod D)%Z as r eqn:Er. clear ED Efl Er.
  destruct (2 * r ?= D)%Z eqn:E.
  - apply Z.compare_eq in E. destruct (Z.even fl); nia.
  - change (2 * r < D)%Z in E. nia.
  - change (2 * r > D)%Z in E. nia.
Qed.

Lemma round_half_even_mono (p q : Q) :
  (p < q)%Q -> (round_half_even p <= round_half_even q)%Z.
Proof.
  intros Hlt. unfold Qlt in Hlt.
  pose proof (round_half_even_near p) as Hp.
  pose proof (round_half_even_near q) as Hq.
  pose proof (Pos2Z.is_pos (Qden p)) as Hdp.
  pose proof (Pos2Z.is_pos (Qden q)) as Hdq.
  destruct (Z.le_gt_cases (round_half_even p) (round_half_even q))
    as [Hle | Hgt]; [exact Hle | exfalso].
  assert (H1 : (round_half_even q + 1 <= round_half_even p)%Z) by lia.
  revert Hlt Hp Hq Hdp Hdq H1. clear Hgt.
  generalize (round_half_even p) as zp, (round_half_even q) as zq.
  generalize (Zpos (Qden p)) as dp, (Zpos (Qden q)) as dq.
  generalize (Qnum p) as np, (Qnum q) as nq.
  intros np nq dp dq zp zq Hlt Hp Hq Hdp Hdq H1.
  assert (A1 : (0 <= (2 * np - (2 * zp * dp - dp)) * dq)%Z)
    by (apply Z.mul_nonneg_nonneg; lia).
  assert (A2 : (0 <= (2 * zq * dq + dq - 2 * nq) * dp)%Z)
    by (apply Z.mul_nonneg_nonneg; lia).
  assert (A3 : (0 <= (zp - zq - 1) * (dp * dq))%Z)
    by (apply Z.mul_nonneg_nonneg; [lia | apply Z.mul_nonneg_nonneg; lia]).
  nia.
Qed.

Lemma round1_mono (x y : Qc) : x <= y -> round1 x <= round1 y.
Proof.
  intros Hle. destruct (Qc_eq_dec x y) as [-> | Hne];
    [apply Qcle_refl |].
  assert (Hlt : (this x < this y)%Q).
  { apply Qle_lteq in Hle as [Hlt | Heq]; [exact Hlt |].
    exfalso. apply Hne. now apply Qc_is_canon. }
  cbn [round1 QcNumber]. unfold Qc_round1, Qcle. cbn [this Q2Qc].
  rewrite !Qred_correct.
  assert (Hm : (this x * inject_Z 10 < this y * inject_Z 10)%Q).
  { apply Qmult_lt_compat_r; [reflexivity | exact Hlt]. }
  apply round_half_even_mono in Hm.
  unfold Qdiv. apply Qmult_le_compat_r; [| discriminate].
  rewrite <- Zle_Qle. exact Hm.
Qed.

Lemma py_min_le (c v : Qc) : py_min c v <= c /\ py_min c v <= v.
Proof.
  unfold py_min. cbn [ltb QcNumber]. unfold Qc_ltb.
  destruct (this v ?= this c)%Q eqn:E.
  - apply Qeq_alt in E. split; [apply Qcle_refl |].
    unfold Qcle. rewrite E. apply Qle_refl.
  - apply Qlt_alt in E. split; [| apply Qcle_refl].
    unfold Qcle. now apply Qlt_le_weak.
  - apply Qgt_alt in E. split; [apply Qcle_refl |].
    unfold Qcle. now apply Qlt_le_weak.
Qed.

(** X16. With a ceiling supplied, the baseline a call returns exceeds
    neither the value computed without ceiling nor the ceiling rounded to
    one decimal place. *)
Theorem ceiling_bounds_baseline (a : Args.t Qc) ports els rows y0 ceiling :
  outcome (selected_ports a) = inr ports -> ports <> [] ->
  Args.max_y0_optical a = Some ceiling ->
  outcome (run a) = inr (els, rows, y0) ->
  exists pad_port,
    lookup (Component.ports (resolve_pad (Args.pad a))) (Args.port_name a)
    = Some pad_port /\
    y0 <= round1 ceiling /\
    y0 <= baseline_y (Component.ymin (Args.component a))
            (Args.fanout_length a) (Port.x pad_port)
            (padding_factor (len ports)) (Args.straight_separation a) None.
Proof.
  intros Hsel Hne Hc H. apply outcome_value in H as [tr H].
  destruct (run_value _ _ _ _ Hsel Hne H)
    as (pad_port & idx & t1 & pads & ordered & t2 &
        Hport & _ & _ & _ & _ & _ & _ & Hy & _).
  exists pad_port. split; [exact Hport |].
  rewrite Hy, Hc. unfold baseline_y.
  match goal with
  | |- round1 (py_min ceiling ?v) <= _ /\ _ =>
      destruct (py_min_le ceiling v) as [H1 H2]; split;
        [now apply round1_mono |];
        apply round1_mono in H2
  end.
  now rewrite round1_idempotent in H2.
Qed.

End ExactCalls.

(* ================================================================== *)
(** ** Whole calls on concrete inputs *)

Section CallExamples.
Open Scope Qc_scope.

Local Abbreviation dp := Sample.direction_ports_from_list_ports.
Local Abbreviation tp := Sample.transform_port.
Local Abbreviation rr := Sample.reference_ref.
Local Abbreviation four_ports := (values (Component.ports Sample.device)).
Local Abbreviation pad_W :=
  (Port.mk "W" (of_int 0 : Qc) (of_int 0) (of_int 180)).

Lemma sample_buckets :
  dirN (dp four_ports) ++ dirW (dp four_ports) ++ dirS (dp four_ports)
  ++ dirE (dp four_ports) = four_ports.
Proof. vm_compute. reflexivity. Qed.

Lemma single_row_call_result_witness :
  exists tr v,
    Sample.run (Sample.defaults Sample.device) = (tr, inr v) /\
    length tr = 8%nat /\ length (fst (fst v)) = 4%nat.
Proof.
  eexists. eexists. split.
  - apply (single_row_call_result dp tp rr (Sample.defaults Sample.device)
             (ports := four_ports) (pad_port := pad_W)
             (idx := [0; 1; 2; 3]%Z)
             (ordered := compose_ordered_ports (dp four_ports)));
      try reflexivity; try discriminate.
  - split; vm_compute; reflexivity.
Defined.

Lemma short_sequence_fails_witness :
  outcome
    (Sample.run
       (Sample.call Sample.device None (Some ["n"; "w"]%string) 1 None 0))
  = inl IndexError /\
  length
    (routed_ports
       (trace
          (Sample.run
             (Sample.call Sample.device None (Some ["n"; "w"]%string) 1 None
                0))))
  = 2%nat.
Proof.
  unfold Sample.run.
  rewrite (short_sequence_fails dp tp rr
             (Sample.call Sample.device None (Some ["n"; "w"]%string) 1 None
                0)
             (ports := four_ports) (pad_port := pad_W)
             (idx := [0; 1; 2; 3]%Z)
             (ordered := [Sample.port "n" (of_int 0) (of_int 10) 90;
                          Sample.port "w" (of_int (-10)) (of_int 0) 180])
             eq_refl ltac:(discriminate) eq_refl eq_refl eq_refl eq_refl
             ltac:(apply Nat.ltb_lt; reflexivity)).
  split; [reflexivity | vm_compute; reflexivity].
Defined.

Lemma missing_pad_port_fails_witness :
  Sample.run (Sample.select Sample.device None None None "E")
  = ([], inl (KeyError "E")).
Proof.
  apply (missing_pad_port_fails dp tp rr
           (Sample.select Sample.device None None None "E")
           (ports := four_ports)); [reflexivity | discriminate | reflexivity].
Defined.

Lemma zero_rows_fails_witness :
  Sample.run (Sample.call Sample.device None None 0 (Some [0%Z]) 0)
  = ([], inl ZeroDivisionError).
Proof.
  apply (zero_rows_fails dp tp rr
           (Sample.call Sample.device None None 0 (Some [0%Z]) 0)
           (ports := four_ports));
    [reflexivity | discriminate | discriminate | reflexivity].
Defined.

Lemma returning_call_shape_witness :
  exists tr els rows y0,
    Sample.run (Sample.defaults Sample.device) = (tr, inr (els, rows, y0)) /\
    exists row, rows = [row] /\ length row = 4%nat.
Proof.
  destruct (returns (Sample.run (Sample.defaults Sample.device)))
    as (tr & [[els rows] y0] & H); [vm_compute; reflexivity |].
  exists tr, els, rows, y0. split; [exact H |].
  exact (proj2 (returning_call_shape dp tp rr
                  (Sample.defaults Sample.device) (ports := four_ports)
                  eq_refl ltac:(discriminate) H)).
Defined.

Lemma every_selected_port_routed_once_witness :
  exists tr v,
    Sample.run (Sample.call Sample.device None None 1
                  (Some [0; 1; 4; 5]%Z) 0) = (tr, inr v) /\
    Permutation (routed_ports tr) four_ports.
Proof.
  destruct (returns
              (Sample.run (Sample.call Sample.device None None 1
                             (Some [0; 1; 4; 5]%Z) 0)))
    as (tr & v & H); [vm_compute; reflexivity |].
  exists tr, v. split; [exact H |].
  apply (every_selected_port_routed_once dp tp rr
           (Sample.call Sample.device None None 1 (Some [0; 1; 4; 5]%Z) 0)
           (ports := four_ports) (v := v));
    [reflexivity | discriminate | left; reflexivity | | exact H].
  rewrite sample_buckets. apply Permutation_refl.
Defined.

Lemma padding_factor_even_witness :
  exists tr els rows y0,
    Sample.run (Sample.defaults (Sample.device1 0))
    = (tr, inr (els, rows, y0)) /\
    padding_factor (len (values (Component.ports (Sample.device1 0)))) = 2%Z /\
    length (routed_ports tr) = 1%nat /\
    frac y0 = ((-14)%Z, 1%positive) /\
    exists pad_indices,
      rows
      = [map (fun i =>
                Placed
                  (ComponentReference.mk Sample.pad
                     (x_center (values (Component.ports (Sample.device1 0)))
                      -: slot_offset 1 (of_int 150) (of_int 0)
                      +: of_int i *: of_int 150,
                      y0
                      -: of_int 0
                         *: row_pitch (of_int 100) 2 1 (of_int 4) (dec 1 10))
                     (-90) "W"))
           pad_indices].
Proof.
  destruct (returns (Sample.run (Sample.defaults (Sample.device1 0))))
    as (tr & [[els rows] y0] & H); [vm_compute; reflexivity |].
  exists tr, els, rows, y0. split; [exact H |].
  destruct (padding_factor_even dp tp rr
              (Sample.defaults (Sample.device1 0))
              (ports := values (Component.ports (Sample.device1 0)))
              eq_refl ltac:(discriminate))
    as (_ & Hodd & _ & Hrun).
  destruct (Hrun tr els rows y0 H)
    as (Hcount & pad_port & Hport & Hy & Hrow).
  split; [exact (Hodd eq_refl) |]. split; [exact Hcount |].
  assert (Ep : Some pad_port = Some pad_W)
    by (rewrite <- Hport; reflexivity).
  assert (pad_port = pad_W) by congruence.
  subst pad_port. split; [rewrite Hy; vm_compute; reflexivity |].
  exact (Hrow eq_refl).
Defined.

Lemma excluded_ports_not_routed_witness :
  exists tr v,
    Sample.run
      (Sample.select Sample.device None (Some ["n"]%string) None "W")
    = (tr, inr v) /\
    Forall (fun p => ~ In (Port.name p) ["n"]%string) (routed_ports tr).
Proof.
  destruct (returns
              (Sample.run
                 (Sample.select Sample.device None (Some ["n"]%string) None
                    "W")))
    as (tr & v & H); [vm_compute; reflexivity |].
  exists tr, v. split; [exact H |].
  apply Forall_forall. intros p Hp.
  apply (excluded_ports_not_routed dp tp rr
           (Sample.select Sample.device None (Some ["n"]%string) None "W")
           (ports := tl four_ports) (excluded := ["n"]%string) (tr := tr)
           (v := v) p eq_refl ltac:(discriminate) (or_introl eq_refl) eq_refl);
    [| exact H | exact Hp].
  intros q Hq.
  assert (E : dirN (dp (tl four_ports)) ++ dirW (dp (tl four_ports))
              ++ dirS (dp (tl four_ports)) ++ dirE (dp (tl four_ports))
              = tl four_ports) by (vm_compute; reflexivity).
  now rewrite E in Hq.
Defined.

Lemma override_decides_routed_ports_witness :
  exists tr v,
    Sample.run
      (Sample.select Sample.device None (Some ["n"]%string)
         (Some ["n"; "n"; "e"; "s"]%string) "W")
    = (tr, inr v) /\
    map Port.name (routed_ports tr) = ["n"; "n"; "e"]%string.
Proof.
  destruct (returns
              (Sample.run
                 (Sample.select Sample.device None (Some ["n"]%string)
                    (Some ["n"; "n"; "e"; "s"]%string) "W")))
    as (tr & v & H); [vm_compute; reflexivity |].
  exists tr, v. split; [exact H |].
  destruct (override_decides_routed_ports dp tp rr
              (Sample.select Sample.device None (Some ["n"]%string)
                 (Some ["n"; "n"; "e"; "s"]%string) "W")
              (ports := tl four_ports)
              (ids := ["n"; "n"; "e"; "s"]%string) (v := v)
              eq_refl ltac:(discriminate) eq_refl ltac:(discriminate) H)
    as (looked_up & Hlook & -> & _).
  inversion Hlook as [| i1 p1 l1 q1 H1 Hl1]; subst.
  inversion Hl1 as [| i2 p2 l2 q2 H2 Hl2]; subst.
  inversion Hl2 as [| i3 p3 l3 q3 H3 Hl3]; subst.
  assert (E1 : Some p1 = Some (Sample.port "n" (of_int 0) (of_int 10) 90))
    by (rewrite <- H1; reflexivity).
  assert (E2 : Some p2 = Some (Sample.port "n" (of_int 0) (of_int 10) 90))
    by (rewrite <- H2; reflexivity).
  assert (E3 : Some p3 = Some (Sample.port "e" (of_int 10) (of_int 0) 0))
    by (rewrite <- H3; reflexivity).
  assert (p1 = Sample.port "n" (of_int 0) (of_int 10) 90) by congruence.
  assert (p2 = Sample.port "n" (of_int 0) (of_int 10) 90) by congruence.
  assert (p3 = Sample.port "e" (of_int 10) (of_int 0) 0) by congruence.
  subst p1 p2 p3. reflexivity.
Defined.

Lemma negative_rows_place_nothing_witness :
  exists tr els rows y0,
    Sample.run (Sample.call (Sample.device1 0) None None (-1) None 0)
    = (tr, inr (els, rows, y0)) /\
    rows = [[Proto Sample.pad]] /\ filter is_pad tr = [].
Proof.
  destruct (returns
              (Sample.run
                 (Sample.call (Sample.device1 0) None None (-1) None 0)))
    as (tr & [[els rows] y0] & H); [vm_compute; reflexivity |].
  exists tr, els, rows, y0. split; [exact H |].
  exact (proj2 (negative_rows_place_nothing dp tp rr
                  (Sample.call (Sample.device1 0) None None (-1) None 0)
                  (ports := values (Component.ports (Sample.device1 0)))
                  eq_refl ltac:(discriminate) eq_refl H)).
Defined.

Lemma labels_select_in_caller_order_witness :
  map Port.name
    match outcome
            (selected_ports
               (Sample.select Sample.device (Some ["e"; "n"; "e"; "w"]%string)
                  (Some ["n"]%string) None "W")) with
    | inr ports => ports
    | inl _ => []
    end
  = ["e"; "e"; "w"]%string.
Proof.
  rewrite (labels_select_in_caller_order
             (Sample.select Sample.device (Some ["e"; "n"; "e"; "w"]%string)
                (Some ["n"]%string) None "W")
             (lbls := ["e"; "n"; "e"; "w"]%string)
             (found := [Sample.port "e" (of_int 10) (of_int 0) 0;
                        Sample.port "n" (of_int 0) (of_int 10) 90;
                        Sample.port "e" (of_int 10) (of_int 0) 0;
                        Sample.port "w" (of_int (-10)) (of_int 0) 180])
             eq_refl ltac:(repeat constructor)).
  reflexivity.
Defined.

Lemma plain_call_returns_witness :
  exists tr els row y0,
    Sample.run (Sample.defaults Sample.device) = (tr, inr (els, [row], y0)) /\
    length row = 4%nat /\
    Permutation (routed_ports tr) four_ports.
Proof.
  apply (plain_call_returns dp tp rr (Sample.defaults Sample.device)
           (ports := four_ports));
    [reflexivity | discriminate | reflexivity | reflexivity
    | left; reflexivity | discriminate |].
  rewrite sample_buckets. apply Permutation_refl.
Defined.

Lemma single_row_pads_on_baseline_witness :
  exists tr els rows y0,
    Sample.run (Sample.defaults Sample.device) = (tr, inr (els, rows, y0)) /\
    exists row,
      rows = [row] /\
      Forall
        (fun o =>
           exists r,
             o = Placed r /\
             snd (ComponentReference.position r) = y0 /\
             ComponentReference.parent r = Sample.pad /\
             ComponentReference.rotation r = (-90)%Z /\
             ComponentReference.port_id r = "W"%string)
        row.
Proof.
  destruct (returns (Sample.run (Sample.defaults Sample.device)))
    as (tr & [[els rows] y0] & H); [vm_compute; reflexivity |].
  exists tr, els, rows, y0. split; [exact H |].
  exact (single_row_pads_on_baseline dp tp rr
           (Sample.defaults Sample.device) (ports := four_ports)
           eq_refl ltac:(discriminate) eq_refl H).
Defined.



Lemma ceiling_bounds_baseline_witness :
  exists els rows y0,
    outcome
      (Sample.run
         (Sample.call (Sample.device1 0) (Some (dec (-113) 8)) None 1 None 0))
    = inr (els, rows, y0) /\
    y0 <= round1 (dec (-113) 8) /\
    y0 <= baseline_y (of_int 10) (of_int 20) (of_int 0) 2 (of_int 4) None.
Proof.
  destruct (returns
              (Sample.run
                 (Sample.call (Sample.device1 0) (Some (dec (-113) 8)) None 1
                    None 0)))
    as (tr & [[els rows] y0] & H); [vm_compute; reflexivity |].
  exists els, rows, y0. rewrite H. split; [reflexivity |].
  destruct (ceiling_bounds_baseline dp tp rr
              (Sample.call (Sample.device1 0) (Some (dec (-113) 8)) None 1
                 None 0)
              (ports := values (Component.ports (Sample.device1 0)))
              (els := els) (rows := rows) (y0 := y0)
              (ceiling := dec (-113) 8)
              eq_refl ltac:(discriminate) eq_refl (f_equal outcome H))
    as (pad_port & Hport & Hy1 & Hy2).
  assert (Ep : Some pad_port = Some pad_W)
    by (rewrite <- Hport; reflexivity).
  assert (pad_port = pad_W) by congruence.
  subst pad_port. split; [exact Hy1 | exact Hy2].
Defined.

End CallExamples.
